(** * BarcodeScannerWeb: the scan lifecycle of [src/web.ts]

    A shallow embedding of the browser implementation of the barcode
    scanner plugin.  The class is an event-driven program: every public
    method is an [async] function whose body runs until its first
    platform [await] (a camera request, [video.play()], the decode
    engine), and is resumed when that platform promise settles.

    The embedding is a labelled transition system over a [World]:
    - the fields of the [BarcodeScannerWeb] instance ([_video],
      [_videoPromise], [_video_nonce], [_controls], ...),
    - the platform objects the code manipulates (media streams and
      their tracks, video elements, the document body, the controls
      handed out by the decode engine, the console),
    - the suspended [async] activations (acquisitions, callers awaiting
      [_videoPromise], decode sessions) and the outcome of each call.

    One [Event] is one turn of the JavaScript event loop: a call of a
    public method by the application, or the settlement of one platform
    promise, together with every continuation it makes runnable (the
    microtask queue drains before the next turn starts).

    [hideBackground], [showBackground], [checkPermission],
    [openAppSettings] and [startScanning] read and write none of the
    fields below and are left out. *)

From Stdlib Require Import NArith String List Lia DecimalString.
From stdpp Require Import base list strings.

Open Scope string_scope.
Open Scope list_scope.

(** ** Values *)

(** [CameraDirection] of [definitions.ts]. *)
Inductive CameraDirection := FRONT | BACK.

(** [ScanOptions]: both fields are optional. *)
Record ScanOptions := {
  targetedFormats : option (list string);
  cameraDirection : option CameraDirection;
}.

(** The constraint objects [_FORWARD] and [_BACK]. *)
Inductive FacingMode := user | environment.

Definition _FORWARD : FacingMode := user.
Definition _BACK : FacingMode := environment.

(** [IScanResultWithContent]. *)
Record ScanResult := {
  hasContent : bool;
  content : string;
  format : string;
}.

(** The exceptions of [@zxing/library] the engine passes to the decode
    callback; [OtherException] stands for every class that is none of
    the three the callback tests with [instanceof]. *)
Inductive Exception :=
| NotFoundException
| ChecksumException
| FormatException
| OtherException (name : string).

Definition exception_name (e : Exception) : string :=
  match e with
  | NotFoundException => "NotFoundException"
  | ChecksumException => "ChecksumException"
  | FormatException => "FormatException"
  | OtherException n => n
  end.

(** The engine's [Result]: what [getText()] and [getBarcodeFormat()]
    return. *)
Record Result := {
  getText : string;
  getBarcodeFormat : N;
}.

(** What the code throws or forwards. *)
Inductive Err :=
| ScanCanceled (message : string)
| Error (message : string)
| Unavailable (message : string)
| DOMException (name : string)
| EngineError (e : Exception).

(** ** Platform objects *)

Inductive ReadyState := live | ended.

(** A media stream is the list of its tracks. *)
Definition MediaStream := list ReadyState.

Record VideoElement := {
  mirrored : bool;
  inlineAutoplay : bool;
  srcObject : option nat;
  playing : bool;
}.

(** [IScannerControls]: [torch] is [None] when the object has no
    [switchTorch] member, and otherwise holds what the last
    [switchTorch] call asked of the hardware. *)
Record ScannerControls := {
  stopped : bool;
  torch : option bool;
}.

Inductive LogLine :=
| console_error (format : string)
| console_warn (name : string).

(** ** Suspended activations *)

(** The promise stored in [_videoPromise] is the one returned by the
    arrow function of [_getVideoElement], which awaits [_startVideo] and
    then installs the element.  Its state is the program point at which
    that activation is suspended, with the locals it holds. *)
Inductive Acquisition :=
| AwaitProbe (video_nonce : N)
| AwaitStream (video_nonce : N) (video : nat) (constraints : FacingMode)
| AwaitPlay (video_nonce : N) (video : nat) (newStream : nat)
| Fulfilled
| Rejected (e : Err).

Definition in_flight (a : Acquisition) : bool :=
  match a with
  | AwaitProbe _ | AwaitStream _ _ _ | AwaitPlay _ _ _ => true
  | Fulfilled | Rejected _ => false
  end.

Definition captured (a : Acquisition) : option N :=
  match a with
  | AwaitProbe n | AwaitStream n _ _ | AwaitPlay n _ _ => Some n
  | Fulfilled | Rejected _ => None
  end.

(** The public methods that go through [_getVideoElement]. *)
Inductive Caller := by_prepare | by_startScan | by_resumeScanning.

(** A caller suspended at [await this._videoPromise]. *)
Record Waiter := {
  awaited : nat;
  waiter_call : nat;
  waiter_caller : Caller;
}.

(** An activation of [_getFirstResultFromReader]: the reader it built,
    whether [decodeFromVideoElement] is still pending, and whether the
    promise it awaits has settled. *)
Record DecodeSession := {
  session_call : nat;
  session_caller : Caller;
  session_video : nat;
  hints : option (list N);
  starting : bool;
  settled : bool;
}.

Inductive Value := VVoid | VScan (r : ScanResult).

Inductive Outcome :=
| Pending
| Resolved (v : Value)
| Failed (e : Err).

(** ** The world *)

Record World := {
  (* fields of the BarcodeScannerWeb instance *)
  _formats : list N;
  _controls : option nat;
  _torchState : bool;
  _video : option nat;
  _videoPromise : option nat;
  _video_nonce : N; (* a number that only counts up from 0, by one *)
  _options : option ScanOptions;
  _facingMode : FacingMode;
  (* platform *)
  mediaDevices : bool;
  isSafari : bool;
  streams : list MediaStream;
  videos : list VideoElement;
  body : list nat;
  scanners : list ScannerControls;
  console : list LogLine;
  (* suspended activations and call outcomes *)
  acquisitions : list Acquisition;
  waiters : list Waiter;
  sessions : list DecodeSession;
  calls : list Outcome;
}.

(** The state of a freshly constructed plugin on a platform. *)
Definition initial (hasMediaDevices safari : bool) : World := {|
  _formats := [];
  _controls := None;
  _torchState := false;
  _video := None;
  _videoPromise := None;
  _video_nonce := 0%N;
  _options := None;
  _facingMode := _BACK;
  mediaDevices := hasMediaDevices;
  isSafari := safari;
  streams := [];
  videos := [];
  body := [];
  scanners := [];
  console := [];
  acquisitions := [];
  waiters := [];
  sessions := [];
  calls := [];
|}.

(** Assignment to one field; every other field is kept. *)

Definition set_formats (x : list N) (w : World) : World :=
  {| _formats := x; _controls := _controls w; _torchState := _torchState w;
     _video := _video w; _videoPromise := _videoPromise w;
     _video_nonce := _video_nonce w; _options := _options w;
     _facingMode := _facingMode w; mediaDevices := mediaDevices w;
     isSafari := isSafari w; streams := streams w; videos := videos w;
     body := body w; scanners := scanners w; console := console w;
     acquisitions := acquisitions w; waiters := waiters w;
     sessions := sessions w; calls := calls w |}.

Definition set_controls (x : option nat) (w : World) : World :=
  {| _formats := _formats w; _controls := x; _torchState := _torchState w;
     _video := _video w; _videoPromise := _videoPromise w;
     _video_nonce := _video_nonce w; _options := _options w;
     _facingMode := _facingMode w; mediaDevices := mediaDevices w;
     isSafari := isSafari w; streams := streams w; videos := videos w;
     body := body w; scanners := scanners w; console := console w;
     acquisitions := acquisitions w; waiters := waiters w;
     sessions := sessions w; calls := calls w |}.

Definition set_torchState (x : bool) (w : World) : World :=
  {| _formats := _formats w; _controls := _controls w; _torchState := x;
     _video := _video w; _videoPromise := _videoPromise w;
     _video_nonce := _video_nonce w; _options := _options w;
     _facingMode := _facingMode w; mediaDevices := mediaDevices w;
     isSafari := isSafari w; streams := streams w; videos := videos w;
     body := body w; scanners := scanners w; console := console w;
     acquisitions := acquisitions w; waiters := waiters w;
     sessions := sessions w; calls := calls w |}.

Definition set_video (x : option nat) (w : World) : World :=
  {| _formats := _formats w; _controls := _controls w;
     _torchState := _torchState w; _video := x;
     _videoPromise := _videoPromise w; _video_nonce := _video_nonce w;
     _options := _options w; _facingMode := _facingMode w;
     mediaDevices := mediaDevices w; isSafari := isSafari w;
     streams := streams w; videos := videos w; body := body w;
     scanners := scanners w; console := console w;
     acquisitions := acquisitions w; waiters := waiters w;
     sessions := sessions w; calls := calls w |}.

Definition set_videoPromise (x : option nat) (w : World) : World :=
  {| _formats := _formats w; _controls := _controls w;
     _torchState := _torchState w; _video := _video w; _videoPromise := x;
     _video_nonce := _video_nonce w; _options := _options w;
     _facingMode := _facingMode w; mediaDevices := mediaDevices w;
     isSafari := isSafari w; streams := streams w; videos := videos w;
     body := body w; scanners := scanners w; console := console w;
     acquisitions := acquisitions w; waiters := waiters w;
     sessions := sessions w; calls := calls w |}.

Definition set_video_nonce (x : N) (w : World) : World :=
  {| _formats := _formats w; _controls := _controls w;
     _torchState := _torchState w; _video := _video w;
     _videoPromise := _videoPromise w; _video_nonce := x;
     _options := _options w; _facingMode := _facingMode w;
     mediaDevices := mediaDevices w; isSafari := isSafari w;
     streams := streams w; videos := videos w; body := body w;
     scanners := scanners w; console := console w;
     acquisitions := acquisitions w; waiters := waiters w;
     sessions := sessions w; calls := calls w |}.

Definition set_options (x : option ScanOptions) (w : World) : World :=
  {| _formats := _formats w; _controls := _controls w;
     _torchState := _torchState w; _video := _video w;
     _videoPromise := _videoPromise w; _video_nonce := _video_nonce w;
     _options := x; _facingMode := _facingMode w;
     mediaDevices := mediaDevices w; isSafari := isSafari w;
     streams := streams w; videos := videos w; body := body w;
     scanners := scanners w; console := console w;
     acquisitions := acquisitions w; waiters := waiters w;
     sessions := sessions w; calls := calls w |}.

Definition set_facingMode (x : FacingMode) (w : World) : World :=
  {| _formats := _formats w; _controls := _controls w;
     _torchState := _torchState w; _video := _video w;
     _videoPromise := _videoPromise w; _video_nonce := _video_nonce w;
     _options := _options w; _facingMode := x;
     mediaDevices := mediaDevices w; isSafari := isSafari w;
     streams := streams w; videos := videos w; body := body w;
     scanners := scanners w; console := console w;
     acquisitions := acquisitions w; waiters := waiters w;
     sessions := sessions w; calls := calls w |}.

Definition set_streams (x : list MediaStream) (w : World) : World :=
  {| _formats := _formats w; _controls := _controls w;
     _torchState := _torchState w; _video := _video w;
     _videoPromise := _videoPromise w; _video_nonce := _video_nonce w;
     _options := _options w; _facingMode := _facingMode w;
     mediaDevices := mediaDevices w; isSafari := isSafari w; streams := x;
     videos := videos w; body := body w; scanners := scanners w;
     console := console w; acquisitions := acquisitions w;
     waiters := waiters w; sessions := sessions w; calls := calls w |}.

Definition set_videos (x : list VideoElement) (w : World) : World :=
  {| _formats := _formats w; _controls := _controls w;
     _torchState := _torchState w; _video := _video w;
     _videoPromise := _videoPromise w; _video_nonce := _video_nonce w;
     _options := _options w; _facingMode := _facingMode w;
     mediaDevices := mediaDevices w; isSafari := isSafari w;
     streams := streams w; videos := x; body := body w;
     scanners := scanners w; console := console w;
     acquisitions := acquisitions w; waiters := waiters w;
     sessions := sessions w; calls := calls w |}.

Definition set_body (x : list nat) (w : World) : World :=
  {| _formats := _formats w; _controls := _controls w;
     _torchState := _torchState w; _video := _video w;
     _videoPromise := _videoPromise w; _video_nonce := _video_nonce w;
     _options := _options w; _facingMode := _facingMode w;
     mediaDevices := mediaDevices w; isSafari := isSafari w;
     streams := streams w; videos := videos w; body := x;
     scanners := scanners w; console := console w;
     acquisitions := acquisitions w; waiters := waiters w;
     sessions := sessions w; calls := calls w |}.

Definition set_scanners (x : list ScannerControls) (w : World) : World :=
  {| _formats := _formats w; _controls := _controls w;
     _torchState := _torchState w; _video := _video w;
     _videoPromise := _videoPromise w; _video_nonce := _video_nonce w;
     _options := _options w; _facingMode := _facingMode w;
     mediaDevices := mediaDevices w; isSafari := isSafari w;
     streams := streams w; videos := videos w; body := body w; scanners := x;
     console := console w; acquisitions := acquisitions w;
     waiters := waiters w; sessions := sessions w; calls := calls w |}.

Definition set_console (x : list LogLine) (w : World) : World :=
  {| _formats := _formats w; _controls := _controls w;
     _torchState := _torchState w; _video := _video w;
     _videoPromise := _videoPromise w; _video_nonce := _video_nonce w;
     _options := _options w; _facingMode := _facingMode w;
     mediaDevices := mediaDevices w; isSafari := isSafari w;
     streams := streams w; videos := videos w; body := body w;
     scanners := scanners w; console := x; acquisitions := acquisitions w;
     waiters := waiters w; sessions := sessions w; calls := calls w |}.

Definition set_acquisitions (x : list Acquisition) (w : World) : World :=
  {| _formats := _formats w; _controls := _controls w;
     _torchState := _torchState w; _video := _video w;
     _videoPromise := _videoPromise w; _video_nonce := _video_nonce w;
     _options := _options w; _facingMode := _facingMode w;
     mediaDevices := mediaDevices w; isSafari := isSafari w;
     streams := streams w; videos := videos w; body := body w;
     scanners := scanners w; console := console w; acquisitions := x;
     waiters := waiters w; sessions := sessions w; calls := calls w |}.

Definition set_waiters (x : list Waiter) (w : World) : World :=
  {| _formats := _formats w; _controls := _controls w;
     _torchState := _torchState w; _video := _video w;
     _videoPromise := _videoPromise w; _video_nonce := _video_nonce w;
     _options := _options w; _facingMode := _facingMode w;
     mediaDevices := mediaDevices w; isSafari := isSafari w;
     streams := streams w; videos := videos w; body := body w;
     scanners := scanners w; console := console w;
     acquisitions := acquisitions w; waiters := x; sessions := sessions w;
     calls := calls w |}.

Definition set_sessions (x : list DecodeSession) (w : World) : World :=
  {| _formats := _formats w; _controls := _controls w;
     _torchState := _torchState w; _video := _video w;
     _videoPromise := _videoPromise w; _video_nonce := _video_nonce w;
     _options := _options w; _facingMode := _facingMode w;
     mediaDevices := mediaDevices w; isSafari := isSafari w;
     streams := streams w; videos := videos w; body := body w;
     scanners := scanners w; console := console w;
     acquisitions := acquisitions w; waiters := waiters w; sessions := x;
     calls := calls w |}.

Definition set_calls (x : list Outcome) (w : World) : World :=
  {| _formats := _formats w; _controls := _controls w;
     _torchState := _torchState w; _video := _video w;
     _videoPromise := _videoPromise w; _video_nonce := _video_nonce w;
     _options := _options w; _facingMode := _facingMode w;
     mediaDevices := mediaDevices w; isSafari := isSafari w;
     streams := streams w; videos := videos w; body := body w;
     scanners := scanners w; console := console w;
     acquisitions := acquisitions w; waiters := waiters w;
     sessions := sessions w; calls := x |}.

(** ** Module-level helpers *)

(** [stopStream]: [stream.getTracks().forEach(track => track.stop())]. *)
Definition stopStream (stream : nat) (w : World) : World :=
  set_streams (alter (map (fun _ => ended)) stream (streams w)) w.

Definition pause (el : VideoElement) : VideoElement :=
  {| mirrored := mirrored el; inlineAutoplay := inlineAutoplay el;
     srcObject := srcObject el; playing := false |}.

Definition play (el : VideoElement) : VideoElement :=
  {| mirrored := mirrored el; inlineAutoplay := inlineAutoplay el;
     srcObject := srcObject el; playing := true |}.

Definition attach (stream : nat) (el : VideoElement) : VideoElement :=
  {| mirrored := mirrored el; inlineAutoplay := inlineAutoplay el;
     srcObject := Some stream; playing := playing el |}.

(** [stopVideo]: pause, stop the attached stream if any, and remove the
    element's container from the document.  The body lists the video
    elements whose container [div] is attached to it. *)
Definition stopVideo (video : nat) (w : World) : World :=
  let w := set_videos (alter pause video (videos w)) w in
  let w := match videos w !! video with
           | Some el =>
               match srcObject el with
               | Some stream => stopStream stream w
               | None => w
               end
           | None => w
           end in
  set_body (List.filter (fun p => negb (Nat.eqb p video)) (body w)) w.

(** [document.getElementById('video')]: every element the code creates
    carries that id, so the lookup succeeds exactly when some container
    is attached. *)
Definition getElementById_video (w : World) : option nat := head (body w).

(** A platform call that resolves with a new stream of [tracks] live
    tracks. *)
Definition getUserMedia (tracks : nat) (w : World) : nat * World :=
  (length (streams w), set_streams (streams w ++ [replicate tracks live]) w).

(** ** Private methods *)

(** [_stop], lines 295-302. *)
Definition _stop (w : World) : World :=
  let w := match _video w with
           | Some video =>
               set_video None (set_videoPromise None (stopVideo video w))
           | None => w
           end in
  set_video_nonce (N.succ (_video_nonce w)) w.

Definition controls_stop (c : nat) (w : World) : World :=
  set_scanners
    (alter (fun s => {| stopped := true; torch := torch s |}) c (scanners w)) w.

Definition switchTorch (c : nat) (on : bool) (w : World) : World :=
  set_scanners
    (alter (fun s => {| stopped := stopped s; torch := Some on |}) c
       (scanners w)) w.

(** Whether [this._controls && this._controls.switchTorch] is truthy,
    and for which controls object. *)
Definition torch_controls (w : World) : option nat :=
  match _controls w with
  | Some c =>
      match scanners w !! c with
      | Some s => match torch s with Some _ => Some c | None => None end
      | None => None
      end
  | None => None
  end.

Definition new_call (w : World) : nat * World :=
  (length (calls w), set_calls (calls w ++ [Pending]) w).

Definition settle_call (call : nat) (o : Outcome) (w : World) : World :=
  set_calls (<[call := o]> (calls w)) w.

(** [_getFirstResultFromReader] up to its [await], lines 186-196: the
    hints are built from [_formats], a reader is created and
    [decodeFromVideoElement] is called. *)
Definition _getFirstResultFromReader
    (video call : nat) (caller : Caller) (w : World) : World :=
  let h := match _formats w with [] => None | fs => Some fs end in
  set_sessions
    (sessions w ++
     [{| session_call := call; session_caller := caller;
         session_video := video; hints := h;
         starting := true; settled := false |}]) w.

(** What a public method does once [_getVideoElement] has returned. *)
Definition continue_with_video
    (caller : Caller) (call video : nat) (w : World) : World :=
  match caller with
  | by_prepare => settle_call call (Resolved VVoid) w
  | by_startScan | by_resumeScanning =>
      _getFirstResultFromReader video call caller w
  end.

(** [_getVideoElement] after [await this._videoPromise], lines 178-183;
    [r] is the rejection reason, if the promise was rejected. *)
Definition resume_getVideoElement
    (r : option Err) (caller : Caller) (call : nat) (w : World) : World :=
  match r with
  | Some e => settle_call call (Failed e) w
  | None =>
      match _video w with
      | None =>
          settle_call call
            (Failed (Error "Unexpected null value for _video")) w
      | Some video => continue_with_video caller call video w
      end
  end.

Fixpoint resume_waiters
    (k : nat) (r : option Err) (ws : list Waiter) (w : World) : World :=
  match ws with
  | [] => w
  | x :: ws =>
      if Nat.eqb (awaited x) k
      then resume_waiters k r ws
             (resume_getVideoElement r (waiter_caller x) (waiter_call x) w)
      else resume_waiters k r ws w
  end.

(** The promise of activation [k] settles; the callers awaiting it are
    resumed in the order in which they started to wait. *)
Definition settle_acquisition (k : nat) (r : option Err) (w : World) : World :=
  let state := match r with None => Fulfilled | Some e => Rejected e end in
  let ws := waiters w in
  let w := set_acquisitions (<[k := state]> (acquisitions w)) w in
  let w := set_waiters (List.filter (fun x => negb (Nat.eqb (awaited x) k)) ws) w in
  resume_waiters k r ws w.

(** [_startVideo] up to its first [await], lines 238-243, run by a new
    activation of the arrow function of [_getVideoElement]. *)
Definition _startVideo (w : World) : World :=
  let video_nonce := _video_nonce w in
  if mediaDevices w
  then set_acquisitions (acquisitions w ++ [AwaitProbe video_nonce]) w
  else set_acquisitions
         (acquisitions w ++ [Rejected (Error "No mediaDevices supported")]) w.

Definition is_BACK (o : option ScanOptions) : bool :=
  match o with
  | Some {| cameraDirection := Some BACK |} => true
  | _ => false
  end.

(** [_startVideo] from the first media request to the second, lines
    240-278. *)
Definition _startVideo_probed
    (k : nat) (video_nonce : N) (tracks : nat) (w : World) : World :=
  let '(stream, w) := getUserMedia tracks w in
  let w := stopStream stream w in
  if negb (video_nonce =? _video_nonce w)%N
  then settle_acquisition k
         (Some (ScanCanceled "Canceled after stopping hypothetic previous scan"))
         w
  else match getElementById_video w with
  | Some _ => settle_acquisition k (Some (Error "Camera already started")) w
  | None =>
      let video := length (videos w) in
      let el := {| mirrored := negb (is_BACK (_options w));
                   inlineAutoplay := isSafari w;
                   srcObject := None; playing := false |} in
      let w := set_videos (videos w ++ [el]) w in
      set_acquisitions
        (<[k := AwaitStream video_nonce video (_facingMode w)]>
           (acquisitions w)) w
  end.

(** [_startVideo] from the second media request to [video.play()],
    lines 278-286. *)
Definition _startVideo_streamed
    (k : nat) (video_nonce : N) (video tracks : nat) (w : World) : World :=
  let '(newStream, w) := getUserMedia tracks w in
  if negb (video_nonce =? _video_nonce w)%N
  then settle_acquisition k
         (Some (ScanCanceled "Canceled after creating new stream"))
         (stopStream newStream w)
  else
    let w := set_videos (alter (attach newStream) video (videos w)) w in
    set_acquisitions
      (<[k := AwaitPlay video_nonce video newStream]> (acquisitions w)) w.

(** [_startVideo] after [video.play()], lines 286-292, followed by the
    rest of the arrow function of [_getVideoElement], lines 167-175. *)
Definition _startVideo_played
    (k : nat) (video_nonce : N) (video newStream : nat) (w : World) : World :=
  let w := set_videos (alter play video (videos w)) w in
  if negb (video_nonce =? _video_nonce w)%N
  then settle_acquisition k
         (Some (ScanCanceled "Canceled while play stream instruction"))
         (stopStream newStream w)
  else
    let w := set_body (body w ++ [video]) w in
    let w := set_video (Some video) w in
    let w := set_videoPromise None w in
    settle_acquisition k None w.

(** [_getVideoElement], lines 162-184. *)
Definition _getVideoElement (caller : Caller) (call : nat) (w : World) : World :=
  match _video w with
  | Some video => continue_with_video caller call video w
  | None =>
      let '(k, w) :=
        match _videoPromise w with
        | Some k => (k, w)
        | None =>
            let k := length (acquisitions w) in
            (k, set_videoPromise (Some k) (_startVideo w))
        end in
      match acquisitions w !! k with
      | Some Fulfilled => resume_getVideoElement None caller call w
      | Some (Rejected e) => resume_getVideoElement (Some e) caller call w
      | _ =>
          set_waiters
            (waiters w ++
             [{| awaited := k; waiter_call := call;
                 waiter_caller := caller |}]) w
      end
  end.

(** ** The decode callback *)

(** [Object.keys(BarcodeFormat)]: the enum of [@zxing/library] is a
    numeric TypeScript enum, so the object has its seventeen reverse
    keys first and the seventeen names after them. *)
Definition BarcodeFormat_names : list string :=
  ["AZTEC"; "CODABAR"; "CODE_39"; "CODE_93"; "CODE_128"; "DATA_MATRIX";
   "EAN_8"; "EAN_13"; "ITF"; "MAXICODE"; "PDF_417"; "QR_CODE"; "RSS_14";
   "RSS_EXPANDED"; "UPC_A"; "UPC_E"; "UPC_EAN_EXTENSION"].

Definition toString (n : N) : string :=
  NilEmpty.string_of_uint (N.to_uint n).

Definition Object_keys_BarcodeFormat : list string :=
  map (fun i => toString (N.of_nat i)) (seq 0 (length BarcodeFormat_names))
  ++ BarcodeFormat_names.

(** The value of the enum member called [name], if there is one. *)
Fixpoint enum_value (names : list string) (name : string) : option N :=
  match names with
  | [] => None
  | n :: names =>
      if String.eqb n name then Some 0%N
      else option_map N.succ (enum_value names name)
  end.

Definition BarcodeFormat (name : string) : option N :=
  enum_value BarcodeFormat_names name.

(** [Array.prototype.indexOf]. *)
Fixpoint indexOf (keys : list string) (x : string) : Z :=
  match keys with
  | [] => (-1)%Z
  | k :: keys =>
      if String.eqb k x then 0%Z
      else let i := indexOf keys x in
           if (i <? 0)%Z then (-1)%Z else (i + 1)%Z
  end.

Inductive CallbackEffect :=
| ignored (name : string)
| rejects (e : Err)
| resolves (r : ScanResult).

(** The tests [error instanceof NotFoundException || ...], lines
    198-202. *)
Definition recoverable (e : Exception) : bool :=
  match e with
  | NotFoundException | ChecksumException | FormatException => true
  | OtherException _ => false
  end.

(** The callback handed to [decodeFromVideoElement], lines 196-225:
    what one invocation asks of the promise. *)
Definition callback
    (result : option Result) (error : option Exception) : CallbackEffect :=
  match error with
  | Some e =>
      if recoverable e then ignored (exception_name e)
      else rejects (EngineError e)
  | None =>
      match result with
      | None => rejects (Error "Unexpectedly called with no error nor result")
      | Some r =>
          let resultText := getText r in
          if String.eqb resultText ""
          then rejects
                 (Error "Unexpectedly called with no error nor text result")
          else resolves
                 {| hasContent := true; content := resultText;
                    format := toString (getBarcodeFormat r) |}
      end
  end.

Definition mark_started (s : DecodeSession) : DecodeSession :=
  {| session_call := session_call s; session_caller := session_caller s;
     session_video := session_video s; hints := hints s;
     starting := false; settled := settled s |}.

Definition mark_settled (s : DecodeSession) : DecodeSession :=
  {| session_call := session_call s; session_caller := session_caller s;
     session_video := session_video s; hints := hints s;
     starting := starting s; settled := true |}.

(** The [finally] block of [_getFirstResultFromReader], lines 227-233. *)
Definition finally (w : World) : World :=
  match _controls w with
  | Some c => _stop (set_controls None (controls_stop c w))
  | None => w
  end.

(** The promise awaited by session [d] settles: the [finally] block
    runs, then the caller's continuation.  The value [startScan] tests
    at line 70 is an object, so the test never throws. *)
Definition finish_session
    (d : nat) (s : DecodeSession) (o : Err + ScanResult) (w : World) : World :=
  let w := set_sessions (<[d := mark_settled s]> (sessions w)) w in
  let w := finally w in
  match o with
  | inl e => settle_call (session_call s) (Failed e) w
  | inr r =>
      match session_caller s with
      | by_startScan => settle_call (session_call s) (Resolved (VScan r)) w
      | _ => settle_call (session_call s) (Resolved VVoid) w
      end
  end.

(** The engine invokes the callback of session [d]. *)
Definition invoke_callback
    (d : nat) (result : option Result) (error : option Exception)
    (w : World) : World :=
  match sessions w !! d with
  | None => w
  | Some s =>
      match callback result error with
      | ignored name => set_console (console w ++ [console_warn name]) w
      | rejects e => if settled s then w else finish_session d s (inl e) w
      | resolves r => if settled s then w else finish_session d s (inr r) w
      end
  end.

(** [decodeFromVideoElement] of session [d] resolves with a new controls
    object, line 196. *)
Definition decode_started (d : nat) (t : option bool) (w : World) : World :=
  match sessions w !! d with
  | Some s =>
      if starting s then
        let c := length (scanners w) in
        let w := set_scanners
                   (scanners w ++ [{| stopped := false; torch := t |}]) w in
        let w := set_controls (Some c) w in
        set_sessions (<[d := mark_started s]> (sessions w)) w
      else w
  | None => w
  end.

(** [decodeFromVideoElement] of session [d] rejects: the executor's own
    promise is rejected and nobody observes it. *)
Definition decode_failed (d : nat) (w : World) : World :=
  match sessions w !! d with
  | Some s =>
      if starting s
      then set_sessions (<[d := mark_started s]> (sessions w)) w
      else w
  | None => w
  end.

(** ** Public methods *)

Definition prepare (w : World) : World :=
  let '(call, w) := new_call w in
  _getVideoElement by_prepare call w.

(** The body of the [forEach] of [startScan], lines 57-64. *)
Definition targeted (w : World) (format : string) : World :=
  let formatIndex := indexOf Object_keys_BarcodeFormat format in
  if (0 <=? formatIndex)%Z
  then set_formats (_formats w ++ [0%N]) w
  else set_console (console w ++ [console_error format]) w.

(** [startScan] before it asks for the video element, lines 55-67. *)
Definition startScan_options (o : option ScanOptions) (w : World) : World :=
  let w := set_options o w in
  let w := set_formats [] w in
  let w := match o with
           | Some {| targetedFormats := Some fs |} => fold_left targeted fs w
           | _ => w
           end in
  match o with
  | Some {| cameraDirection := Some d |} =>
      set_facingMode (match d with BACK => _BACK | FRONT => _FORWARD end) w
  | _ => w
  end.

Definition startScan (o : option ScanOptions) (w : World) : World :=
  let '(call, w) := new_call w in
  _getVideoElement by_startScan call (startScan_options o w).

Definition pauseScanning (w : World) : World :=
  let '(call, w) := new_call w in
  let w := match _controls w with
           | Some c => set_controls None (controls_stop c w)
           | None => w
           end in
  settle_call call (Resolved VVoid) w.

Definition resumeScanning (w : World) : World :=
  let '(call, w) := new_call w in
  _getVideoElement by_resumeScanning call w.

Definition stopScan (w : World) : World :=
  let '(call, w) := new_call w in
  let w := _stop w in
  let w := match _controls w with
           | Some c => set_controls None (controls_stop c w)
           | None => w
           end in
  settle_call call (Resolved VVoid) w.

Definition disableTorch (w : World) : World :=
  let '(call, w) := new_call w in
  let w := match torch_controls w with
           | Some c => set_torchState false (switchTorch c false w)
           | None => w
           end in
  settle_call call (Resolved VVoid) w.

Definition enableTorch (w : World) : World :=
  let '(call, w) := new_call w in
  let w := match torch_controls w with
           | Some c => set_torchState true (switchTorch c true w)
           | None => w
           end in
  settle_call call (Resolved VVoid) w.

Definition toggleTorch (w : World) : World :=
  let '(call, w) := new_call w in
  let w := match torch_controls w with
           | Some c => switchTorch c true w
           | None => w
           end in
  settle_call call (Resolved VVoid) w.

Record TorchStateResult := { isEnabled : bool }.

Definition getTorchState (w : World) : TorchStateResult :=
  {| isEnabled := _torchState w |}.

(** ** Turns of the event loop *)

Inductive Event :=
(* the application calls a public method *)
| call_prepare
| call_startScan (o : option ScanOptions)
| call_pauseScanning
| call_resumeScanning
| call_stopScan
| call_disableTorch
| call_enableTorch
| call_toggleTorch
(* the pending platform request of acquisition [k] settles *)
| media_resolved (k tracks : nat)
| media_rejected (k : nat) (name : string)
| play_resolved (k : nat)
| play_rejected (k : nat) (name : string)
(* the decode engine acts on session [d]: [decodeFromVideoElement]
   settles, or the callback is invoked, which the engine may do at any
   time once it has been handed the callback *)
| decode_resolved (d : nat) (t : option bool)
| decode_rejected (d : nat)
| frame (d : nat) (result : option Result) (error : option Exception).

(** One turn.  An event that names no pending request leaves the world
    as it is. *)
Definition step (w : World) (ev : Event) : World :=
  match ev with
  | call_prepare => prepare w
  | call_startScan o => startScan o w
  | call_pauseScanning => pauseScanning w
  | call_resumeScanning => resumeScanning w
  | call_stopScan => stopScan w
  | call_disableTorch => disableTorch w
  | call_enableTorch => enableTorch w
  | call_toggleTorch => toggleTorch w
  | media_resolved k tracks =>
      match acquisitions w !! k with
      | Some (AwaitProbe n) => _startVideo_probed k n tracks w
      | Some (AwaitStream n video _) => _startVideo_streamed k n video tracks w
      | _ => w
      end
  | media_rejected k name =>
      match acquisitions w !! k with
      | Some (AwaitProbe _) | Some (AwaitStream _ _ _) =>
          settle_acquisition k (Some (DOMException name)) w
      | _ => w
      end
  | play_resolved k =>
      match acquisitions w !! k with
      | Some (AwaitPlay n video newStream) =>
          _startVideo_played k n video newStream w
      | _ => w
      end
  | play_rejected k name =>
      match acquisitions w !! k with
      | Some (AwaitPlay _ _ _) =>
          settle_acquisition k (Some (DOMException name)) w
      | _ => w
      end
  | decode_resolved d t => decode_started d t w
  | decode_rejected d => decode_failed d w
  | frame d result error => invoke_callback d result error w
  end.

Definition run (w : World) (evs : list Event) : World := fold_left step evs w.

(** The number of tracks whose [readyState] is [live]. *)
Definition live_tracks (w : World) : nat :=
  length (List.filter (fun t => match t with live => true | ended => false end)
            (concat (streams w))).

(** * Notions used to state the properties *)

(** ** Runs *)

(** A run of the plugin from its construction. *)
Definition reachable (w : World) : Prop :=
  exists m s evs, w = run (initial m s) evs.

(** The call event of each public method that needs the video. *)
Definition call_of (caller : Caller) (o : option ScanOptions) : Event :=
  match caller with
  | by_prepare => call_prepare
  | by_startScan => call_startScan o
  | by_resumeScanning => call_resumeScanning
  end.

(** The event by which the platform request an acquisition awaits
    resolves. *)
Definition resolution (x : Acquisition) (k tracks : nat) : Event :=
  match x with
  | AwaitPlay _ _ _ => play_resolved k
  | _ => media_resolved k tracks
  end.

(** The engine reports errors to session [d], with or without a
    result. *)
Definition error_frames
    (d : nat) (fs : list (option Result * Exception)) : list Event :=
  map (fun f => frame d (fst f) (Some (snd f))) fs.

(** The per-frame conditions the specification names as recoverable:
    no symbol found in the frame, checksum mismatch, malformed symbol.
    This follows the specification, not the code: the test of the code
    is [recoverable]. *)
Definition spec_per_frame_condition (e : Exception) : Prop :=
  e = NotFoundException \/ e = ChecksumException \/ e = FormatException.

(** ** Groups of fields *)

(** Every field but the decode sessions and the call outcomes: what
    resuming a caller of [_getVideoElement] cannot touch. *)
Definition core (w : World) :=
  (_formats w, _controls w, _torchState w, _video w, _videoPromise w,
   _video_nonce w, _options w, _facingMode w, mediaDevices w, isSafari w,
   streams w, videos w, body w, scanners w, console w, acquisitions w,
   waiters w).

(** What the option handling of [startScan] leaves alone. *)
Definition beyond_options (w : World) :=
  (_controls w, _torchState w, _video w, _videoPromise w, _video_nonce w,
   streams w, videos w, body w, scanners w, acquisitions w, waiters w,
   sessions w, calls w).

(** The fields that decide which stream may be live. *)
Definition deep (w : World) :=
  (streams w, videos w, _video w, _videoPromise w, acquisitions w).

(** ** The acquisition state machine

    The fields that decide whether a camera is acquired: the document
    body, [_video], [_videoPromise], the acquisitions and the generation
    counter; and the six moves a turn can make on them. *)

Record View := {
  v_body : list nat;
  v_video : option nat;
  v_videoPromise : option nat;
  v_acquisitions : list Acquisition;
  v_nonce : N;
}.

Definition view (w : World) : View :=
  {| v_body := body w; v_video := _video w;
     v_videoPromise := _videoPromise w;
     v_acquisitions := acquisitions w; v_nonce := _video_nonce w |}.

(** Nothing; [_stop]; a new activation of [_startVideo]; an acquisition
    passes a checkpoint with its generation current; an acquisition is
    rejected; the video element is installed. *)
Inductive Effect (a b : View) : Prop :=
| eff_none :
    b = a -> Effect a b
| eff_stop :
    v_acquisitions b = v_acquisitions a ->
    v_nonce b = N.succ (v_nonce a) ->
    v_video b = None ->
    match v_video a with
    | Some video =>
        v_videoPromise b = None
        /\ v_body b = List.filter (fun p => negb (Nat.eqb p video)) (v_body a)
    | None =>
        v_videoPromise b = v_videoPromise a /\ v_body b = v_body a
    end ->
    Effect a b
| eff_start (x : Acquisition) :
    v_video a = None ->
    v_videoPromise a = None ->
    x = AwaitProbe (v_nonce a) \/ (exists e, x = Rejected e) ->
    b = {| v_body := v_body a; v_video := None;
           v_videoPromise := Some (length (v_acquisitions a));
           v_acquisitions := v_acquisitions a ++ [x];
           v_nonce := v_nonce a |} ->
    Effect a b
| eff_advance (k : nat) (x y : Acquisition) :
    v_acquisitions a !! k = Some x ->
    captured x = Some (v_nonce a) ->
    captured y = Some (v_nonce a) ->
    b = {| v_body := v_body a; v_video := v_video a;
           v_videoPromise := v_videoPromise a;
           v_acquisitions := <[k := y]> (v_acquisitions a);
           v_nonce := v_nonce a |} ->
    Effect a b
| eff_abort (k : nat) (x : Acquisition) (e : Err) :
    v_acquisitions a !! k = Some x ->
    in_flight x = true ->
    b = {| v_body := v_body a; v_video := v_video a;
           v_videoPromise := v_videoPromise a;
           v_acquisitions := <[k := Rejected e]> (v_acquisitions a);
           v_nonce := v_nonce a |} ->
    Effect a b
| eff_install (k video newStream : nat) :
    v_acquisitions a !! k = Some (AwaitPlay (v_nonce a) video newStream) ->
    b = {| v_body := v_body a ++ [video]; v_video := Some video;
           v_videoPromise := None;
           v_acquisitions := <[k := Fulfilled]> (v_acquisitions a);
           v_nonce := v_nonce a |} ->
    Effect a b.

(** The invariant of the state machine: the document holds the current
    video element and nothing else, and an acquisition that has not
    settled is the one [_videoPromise] names, runs while [_video] is
    null, and captured a generation that is not in the future. *)
Record Inv (a : View) : Prop := {
  inv_body :
    v_body a = match v_video a with Some video => [video] | None => [] end;
  inv_flight : forall k x,
    v_acquisitions a !! k = Some x -> in_flight x = true ->
    v_videoPromise a = Some k /\ v_video a = None
    /\ exists n, captured x = Some n /\ (n <= v_nonce a)%N;
}.

(** [_video] is null and [_videoPromise] holds a promise rejected with
    [e]. *)
Definition poisoned (a : View) (e : Err) : Prop :=
  v_video a = None
  /\ exists k, v_videoPromise a = Some k
               /\ v_acquisitions a !! k = Some (Rejected e).

(** ** Live streams *)

(** Stream [s] has a track whose [readyState] is [live]. *)
Definition has_live (w : World) (s : nat) : Prop :=
  exists tracks, streams w !! s = Some tracks /\ In live tracks.

(** The stream attached to the current video element, or else the one
    the pending acquisition is about to play. *)
Definition owner (w : World) : option nat :=
  match _video w with
  | Some video =>
      match videos w !! video with
      | Some el => srcObject el
      | None => None
      end
  | None =>
      match _videoPromise w with
      | Some k =>
          match acquisitions w !! k with
          | Some (AwaitPlay _ _ newStream) => Some newStream
          | _ => None
          end
      | None => None
      end
  end.

(** Only the owner's stream is live; the stream of an acquisition
    awaiting [play()] is attached to its element; the element of an
    acquisition awaiting its stream exists. *)
Record Owned (w : World) : Prop := {
  own_live : forall s, has_live w s -> owner w = Some s;
  own_attached : forall k n video s,
    acquisitions w !! k = Some (AwaitPlay n video s) ->
    exists el, videos w !! video = Some el /\ srcObject el = Some s;
  own_created : forall k n video f,
    acquisitions w !! k = Some (AwaitStream n video f) ->
    video < length (videos w);
}.

Definition Safe (w : World) : Prop :=
  (exists e, poisoned (view w) e) \/ Owned w.

(** ** Torch, callback and formats *)

(** No [disableTorch] of the run finds controls with a torch. *)
Fixpoint no_effective_disableTorch (w : World) (evs : list Event) : Prop :=
  match evs with
  | [] => True
  | ev :: evs =>
      (ev = call_disableTorch -> torch_controls w = None)
      /\ no_effective_disableTorch (step w ev) evs
  end.

(** The text the callback extracts from what the engine hands it: none
    when there is no result object (line 211) and none when [getText()]
    is empty (line 216). *)
Definition extractable_text (result : option Result) : option string :=
  match result with
  | Some r => if String.eqb (getText r) "" then None else Some (getText r)
  | None => None
  end.

(** The test [formatIndex >= 0] of line 59. *)
Definition recognized (format : string) : bool :=
  (0 <=? indexOf Object_keys_BarcodeFormat format)%Z.

(** The hints with which the reader of a [startScan] is built when the
    camera is acquired without incident. *)
Definition hints_of_startScan (o : option ScanOptions) : option (option (list N)) :=
  hints <$>
    sessions
      (run (initial true false)
         [call_startScan o; media_resolved 0 1; media_resolved 0 1;
          play_resolved 0]) !! 0.

(** ** Worlds and runs used as examples *)

(** A scan is running on controls that have a torch, the torch lit. *)
Definition scanning_with_torch : World :=
  run (initial true false)
    [call_startScan None; media_resolved 0 1; media_resolved 0 1;
     play_resolved 0; decode_resolved 0 (Some true)].

(** [startScan] awaits the decode engine. *)
Definition decoding : World :=
  run (initial true false)
    [call_startScan None; media_resolved 0 1; media_resolved 0 1;
     play_resolved 0; decode_resolved 0 None].

Definition BACK_options : option ScanOptions :=
  Some {| targetedFormats := None; cameraDirection := Some BACK |}.

Definition canceled : Err :=
  ScanCanceled "Canceled after stopping hypothetic previous scan".

(** [startScan], then [stopScan] before the first media request
    settles, then the request resolves. *)
Definition canceled_start : World :=
  run (initial true false)
    [call_startScan BACK_options; call_stopScan; media_resolved 0 1].

(** [stopScan] runs while [video.play()] is pending, and [play()] then
    rejects. *)
Definition stop_during_play : World :=
  run (initial true false)
    [call_startScan BACK_options; media_resolved 0 1; media_resolved 0 1;
     call_stopScan; play_rejected 0 "NotAllowedError"].

(** [video.play()] rejects during an undisturbed [startScan]. *)
Definition play_fails : World :=
  run (initial true false)
    [call_startScan BACK_options; media_resolved 0 1; media_resolved 0 1;
     play_rejected 0 "NotAllowedError"].

(** * The rest of the plugin *)

(** ** The document background

    [hideBackground] and [showBackground], lines 43-52, use the field
    [_backgroundColor] and the style of the document element and
    nothing else. *)

Record Background := {
  _backgroundColor : option string;
  backgroundColor : string;
}.

Definition hideBackground (b : Background) : Background :=
  {| _backgroundColor := Some (backgroundColor b);
     backgroundColor := "transparent" |}.

(** [this._backgroundColor || '']: null and the empty string both give
    the empty string. *)
Definition showBackground (b : Background) : Background :=
  {| _backgroundColor := _backgroundColor b;
     backgroundColor :=
       match _backgroundColor b with
       | Some c => if String.eqb c "" then "" else c
       | None => ""
       end |}.

(** ** Permissions

    [checkPermission], lines 99-132.  [permissions] is [None] when
    [navigator] or [navigator.permissions] is missing; otherwise it
    tells whether the query for ['camera'] throws, or the [state] of the
    status it resolves with. *)

Record CheckPermissionResult := {
  granted : option bool;
  denied : option bool;
  neverAsked : option bool;
  unknown : option bool;
}.

Definition checkPermission
    (permissions : option (option string)) : Err + CheckPermissionResult :=
  match permissions with
  | None => inl (Unavailable "Permissions API not available in this browser")
  | Some None =>
      inl (Unavailable "Camera permissions are not available in this browser")
  | Some (Some state) =>
      if String.eqb state "prompt" then
        inr {| granted := None; denied := None; neverAsked := Some true;
               unknown := None |}
      else if String.eqb state "denied" then
        inr {| granted := None; denied := Some true; neverAsked := None;
               unknown := None |}
      else if String.eqb state "granted" then
        inr {| granted := Some true; denied := None; neverAsked := None;
               unknown := None |}
      else
        inr {| granted := None; denied := None; neverAsked := None;
               unknown := Some true |}
  end.

(** The flags of a result that are set. *)
Definition flags (r : CheckPermissionResult) : list (option bool) :=
  List.filter (fun f => match f with Some _ => true | None => false end)
    [granted r; denied r; neverAsked r; unknown r].

(** ** More invariants of the acquisition state machine *)

(** A rejected acquisition is the one [_videoPromise] still names. *)
Definition Kept (a : View) : Prop :=
  forall k e, v_acquisitions a !! k = Some (Rejected e) -> poisoned a e.

(** [_video] and [_videoPromise] are not set together. *)
Definition Exclusive (a : View) : Prop :=
  v_video a <> None -> v_videoPromise a = None.

(** The events that can move the generation counter. *)
Definition bumps (ev : Event) : bool :=
  match ev with
  | call_stopScan | frame _ _ _ => true
  | _ => false
  end.

(** The error of [_startVideo] on a platform without media devices. *)
Definition no_mediaDevices : Err := Error "No mediaDevices supported".


(** On a platform without media devices nothing is ever acquired: the
    plugin is either untouched by any caller of [_getVideoElement], or
    poisoned by the error of [_startVideo]. *)
Definition Deprived (w : World) : Prop :=
  mediaDevices w = false /\ _video w = None /\ streams w = []
  /\ (acquisitions w = [] /\ _videoPromise w = None
      \/ poisoned (view w) no_mediaDevices).

(** The options name no camera direction. *)
Definition no_direction (o : option ScanOptions) : bool :=
  match o with
  | Some {| cameraDirection := Some _ |} => false
  | _ => true
  end.

(** The session [_getFirstResultFromReader] adds for [call]. *)
Definition new_session
    (video call : nat) (caller : Caller) (w : World) : DecodeSession :=
  {| session_call := call; session_caller := caller; session_video := video;
     hints := match _formats w with [] => None | fs => Some fs end;
     starting := true; settled := false |}.

(** The event by which the platform request an acquisition awaits is
    rejected. *)
Definition rejection (x : Acquisition) (k : nat) (name : string) : Event :=
  match x with
  | AwaitPlay _ _ _ => play_rejected k name
  | _ => media_rejected k name
  end.

(** Every suspended caller of [_getVideoElement] belongs to a call that
    was made. *)
Definition Queued (w : World) : Prop :=
  Forall (fun y => waiter_call y < length (calls w)) (waiters w).

(** [tracks'] are the tracks [tracks] at a later time: as many, and
    those that had ended have still ended. *)
Definition later_tracks (tracks tracks' : list ReadyState) : Prop :=
  length tracks' = length tracks
  /\ forall i, tracks !! i = Some ended -> tracks' !! i = Some ended.

(** [startScan] and [resumeScanning] both wait for the same video
    element, which is then installed: two decode sessions start. *)
Definition two_sessions : World :=
  run (initial true false)
    [call_startScan None; call_resumeScanning; media_resolved 0 1;
     media_resolved 0 1; play_resolved 0].

(** * Properties *)

(** ** Calls that complete in the turn in which they are made *)

Lemma settle_new_call (w : World) (o : Outcome) :
  settle_call (length (calls w)) o (set_calls (calls w ++ [Pending]) w)
  = set_calls (calls w ++ [o]) w.
Proof.
  unfold settle_call, set_calls; cbn. f_equal.
  rewrite insert_app_r_alt by lia.
  now rewrite Nat.sub_diag.
Qed.

Lemma calls_settle_call_fresh (w : World) (cs : list Outcome) (o : Outcome) :
  calls w = cs ++ [Pending] ->
  calls (settle_call (length cs) o w) = cs ++ [o].
Proof.
  intros E. unfold settle_call; cbn. rewrite E.
  rewrite insert_app_r_alt by lia. now rewrite Nat.sub_diag.
Qed.

Lemma enableTorch_without_controls (w : World) :
  _controls w = None ->
  enableTorch w = set_calls (calls w ++ [Resolved VVoid]) w.
Proof.
  intros E. unfold enableTorch, new_call, torch_controls; cbn.
  rewrite E. apply settle_new_call.
Qed.

Lemma disableTorch_without_controls (w : World) :
  _controls w = None ->
  disableTorch w = set_calls (calls w ++ [Resolved VVoid]) w.
Proof.
  intros E. unfold disableTorch, new_call, torch_controls; cbn.
  rewrite E. apply settle_new_call.
Qed.

(** C8: with no decode control active, [enableTorch] and [disableTorch]
    complete (their call is resolved, nothing is thrown) and the value
    reported by [getTorchState] is the one reported before the call. *)
Theorem torch_switch_without_controls (w : World) :
  _controls w = None ->
  (calls (enableTorch w) = calls w ++ [Resolved VVoid]
   /\ getTorchState (enableTorch w) = getTorchState w)
  /\ (calls (disableTorch w) = calls w ++ [Resolved VVoid]
      /\ getTorchState (disableTorch w) = getTorchState w).
Proof.
  intros E.
  rewrite (enableTorch_without_controls w E).
  rewrite (disableTorch_without_controls w E).
  repeat split.
Qed.

Lemma torch_switch_without_controls_witness :
  _controls (initial true false) = None
  /\ (calls (enableTorch (initial true false)) = [Resolved VVoid]
      /\ getTorchState (enableTorch (initial true false))
         = getTorchState (initial true false))
  /\ (calls (disableTorch (initial true false)) = [Resolved VVoid]
      /\ getTorchState (disableTorch (initial true false))
         = getTorchState (initial true false)).
Proof.
  split; [reflexivity|].
  apply (torch_switch_without_controls (initial true false)).
  reflexivity.
Defined.

(** C9: with a torch-capable control active, [toggleTorch] asks the
    hardware for "on" whatever the torch was before, and the value
    reported by [getTorchState] does not change. *)
Theorem toggleTorch_switches_on (w : World) (c : nat) (s : ScannerControls) :
  _controls w = Some c ->
  scanners w !! c = Some s ->
  is_Some (torch s) ->
  scanners (toggleTorch w) !! c
    = Some {| stopped := stopped s; torch := Some true |}
  /\ getTorchState (toggleTorch w) = getTorchState w.
Proof.
  intros Ec Es [b Eb].
  unfold toggleTorch, new_call, torch_controls; cbn.
  rewrite Ec, Es, Eb. cbn. split; [|reflexivity].
  rewrite list_lookup_alter_eq, Es. reflexivity.
Qed.

Lemma toggleTorch_switches_on_witness :
  scanners (toggleTorch scanning_with_torch) !! 0
    = Some {| stopped := false; torch := Some true |}
  /\ getTorchState (toggleTorch scanning_with_torch)
     = getTorchState scanning_with_torch.
Proof.
  apply (toggleTorch_switches_on scanning_with_torch 0
           {| stopped := false; torch := Some true |}).
  - reflexivity.
  - reflexivity.
  - eexists; reflexivity.
Defined.

(** ** What resuming the callers of [_getVideoElement] can touch *)

Lemma core_resume_getVideoElement r caller call w :
  core (resume_getVideoElement r caller call w) = core w.
Proof.
  unfold resume_getVideoElement, continue_with_video.
  destruct r; [reflexivity|].
  destruct (_video w); [|reflexivity].
  destruct caller; reflexivity.
Qed.

Lemma core_resume_waiters k r ws : forall w,
  core (resume_waiters k r ws w) = core w.
Proof.
  induction ws as [|x ws IH]; intros w; cbn; [reflexivity|].
  destruct (Nat.eqb (awaited x) k); rewrite IH; [|reflexivity].
  apply core_resume_getVideoElement.
Qed.

Lemma core_settle_acquisition k r w :
  core (settle_acquisition k r w)
  = core (set_waiters
            (List.filter (fun x => negb (Nat.eqb (awaited x) k)) (waiters w))
            (set_acquisitions
               (<[k := match r with None => Fulfilled | Some e => Rejected e end]>
                  (acquisitions w)) w)).
Proof. unfold settle_acquisition. apply core_resume_waiters. Qed.

Ltac from_core L :=
  let H := fresh in
  pose proof L as H; unfold core in H; cbn in H;
  injection H; intros; assumption.

Section SettleAcquisition.

Variables (k : nat) (r : option Err) (w : World).

Lemma settle_acquisition_formats :
  _formats (settle_acquisition k r w) = _formats w.
Proof. from_core (core_settle_acquisition k r w). Qed.

Lemma settle_acquisition_controls :
  _controls (settle_acquisition k r w) = _controls w.
Proof. from_core (core_settle_acquisition k r w). Qed.

Lemma settle_acquisition_torchState :
  _torchState (settle_acquisition k r w) = _torchState w.
Proof. from_core (core_settle_acquisition k r w). Qed.

Lemma settle_acquisition_video :
  _video (settle_acquisition k r w) = _video w.
Proof. from_core (core_settle_acquisition k r w). Qed.

Lemma settle_acquisition_videoPromise :
  _videoPromise (settle_acquisition k r w) = _videoPromise w.
Proof. from_core (core_settle_acquisition k r w). Qed.

Lemma settle_acquisition_video_nonce :
  _video_nonce (settle_acquisition k r w) = _video_nonce w.
Proof. from_core (core_settle_acquisition k r w). Qed.

Lemma settle_acquisition_streams :
  streams (settle_acquisition k r w) = streams w.
Proof. from_core (core_settle_acquisition k r w). Qed.

Lemma settle_acquisition_videos :
  videos (settle_acquisition k r w) = videos w.
Proof. from_core (core_settle_acquisition k r w). Qed.

Lemma settle_acquisition_body :
  body (settle_acquisition k r w) = body w.
Proof. from_core (core_settle_acquisition k r w). Qed.

Lemma settle_acquisition_scanners :
  scanners (settle_acquisition k r w) = scanners w.
Proof. from_core (core_settle_acquisition k r w). Qed.

Lemma settle_acquisition_acquisitions :
  acquisitions (settle_acquisition k r w)
  = <[k := match r with None => Fulfilled | Some e => Rejected e end]>
      (acquisitions w).
Proof. from_core (core_settle_acquisition k r w). Qed.

Lemma settle_acquisition_waiters :
  waiters (settle_acquisition k r w)
  = List.filter (fun x => negb (Nat.eqb (awaited x) k)) (waiters w).
Proof. from_core (core_settle_acquisition k r w). Qed.

End SettleAcquisition.

Arguments settle_acquisition : simpl never.

Create Rewrite HintDb world.
#[export] Hint Rewrite
  settle_acquisition_formats settle_acquisition_controls
  settle_acquisition_torchState settle_acquisition_video
  settle_acquisition_videoPromise settle_acquisition_video_nonce
  settle_acquisition_streams settle_acquisition_videos
  settle_acquisition_body settle_acquisition_scanners
  settle_acquisition_acquisitions settle_acquisition_waiters : world.

Ltac unfold_methods :=
  unfold step, prepare, startScan, startScan_options, pauseScanning,
    resumeScanning, stopScan,
    disableTorch, enableTorch, toggleTorch, invoke_callback, decode_started,
    decode_failed, finish_session, finally, _getVideoElement,
    resume_getVideoElement, continue_with_video, _getFirstResultFromReader,
    _startVideo_probed, _startVideo_streamed, _startVideo_played,
    _startVideo, _stop, stopVideo, stopStream, getUserMedia, new_call,
    settle_call, controls_stop, switchTorch, getElementById_video in *.

Ltac simpl_world :=
  repeat (cbn in *; autorewrite with world in * ).

Lemma torchState_fold_targeted fs : forall w,
  _torchState (fold_left targeted fs w) = _torchState w.
Proof.
  induction fs as [|f fs IH]; intros w; cbn; [reflexivity|].
  rewrite IH. unfold targeted. now destruct (0 <=? _)%Z.
Qed.

(** Only [enableTorch] and [disableTorch] write [_torchState]. *)
Lemma step_torchState (w : World) (ev : Event) :
  ev <> call_enableTorch -> ev <> call_disableTorch ->
  _torchState (step w ev) = _torchState w.
Proof.
  intros He Hd. destruct ev; try congruence; unfold_methods; cbn.
  all: repeat (case_match; simplify_eq; simpl_world;
               rewrite ?torchState_fold_targeted; try reflexivity).
Qed.

(** ** The cached torch flag *)

Lemma torchState_stays_true (evs : list Event) : forall w,
  _torchState w = true ->
  no_effective_disableTorch w evs ->
  _torchState (run w evs) = true.
Proof.
  induction evs as [|ev evs IH]; intros w Ht Hq; cbn; [exact Ht|].
  destruct Hq as [Hd Hq]. apply IH; [|exact Hq].
  destruct ev; try (rewrite step_torchState by discriminate; exact Ht).
  - specialize (Hd eq_refl). cbn.
    unfold disableTorch, new_call, settle_call; cbn.
    unfold torch_controls in *; cbn. destruct (_controls w); [|exact Ht].
    destruct (scanners w !! n); [|exact Ht].
    destruct (torch s); [discriminate|exact Ht].
  - cbn. unfold enableTorch, new_call, settle_call; cbn.
    destruct (torch_controls _); cbn; [reflexivity|exact Ht].
Qed.

(** C10: [stopScan] and [pauseScanning] clear [_controls] and leave the
    cached torch flag alone; once [enableTorch] has run on controls with
    a torch, [getTorchState] keeps reporting [true] through every later
    turn (stops and pauses included) as long as no [disableTorch] finds
    controls with a torch, and such a [disableTorch] resets it. *)
Theorem torch_flag_outlives_controls (w : World) (c : nat) :
  torch_controls w = Some c ->
  (forall w', _controls (stopScan w') = None
              /\ getTorchState (stopScan w') = getTorchState w')
  /\ (forall w', _controls (pauseScanning w') = None
                 /\ getTorchState (pauseScanning w') = getTorchState w')
  /\ (forall evs, no_effective_disableTorch (enableTorch w) evs ->
        getTorchState (run (enableTorch w) evs) = {| isEnabled := true |})
  /\ (forall w', is_Some (torch_controls w') ->
        getTorchState (disableTorch w') = {| isEnabled := false |}).
Proof.
  intros Hc. repeat split.
  - unfold stopScan, new_call, settle_call; cbn.
    case_match; [reflexivity|assumption].
  - unfold getTorchState. f_equal.
    apply (step_torchState w' call_stopScan); discriminate.
  - unfold pauseScanning, new_call, settle_call; cbn.
    case_match; [reflexivity|assumption].
  - unfold getTorchState. f_equal.
    apply (step_torchState w' call_pauseScanning); discriminate.
  - intros evs Hq. unfold getTorchState. f_equal.
    apply torchState_stays_true; [|exact Hq].
    unfold enableTorch, new_call, settle_call; cbn.
    unfold torch_controls in *; cbn.
    destruct (_controls w); [|discriminate].
    destruct (scanners w !! n); [|discriminate].
    now destruct (torch s).
  - intros w' [c' Hc']. unfold disableTorch, new_call, settle_call; cbn.
    unfold torch_controls in *; cbn.
    destruct (_controls w'); [|discriminate].
    destruct (scanners w' !! n); [|discriminate].
    now destruct (torch s).
Qed.

Lemma torch_flag_outlives_controls_witness :
  getTorchState
    (run (enableTorch scanning_with_torch)
       [call_pauseScanning; call_stopScan; call_disableTorch])
  = {| isEnabled := true |}.
Proof.
  apply (torch_flag_outlives_controls scanning_with_torch 0).
  - reflexivity.
  - vm_compute. repeat split; intros; try discriminate; reflexivity.
Defined.

(** ** Every turn is a move of the acquisition state machine *)

Ltac by_cases :=
  cbn; repeat (case_match; simplify_eq; cbn);
  try reflexivity; try congruence.

Lemma view_of_core w w' : core w' = core w -> view w' = view w.
Proof.
  unfold core, view. intros H. injection H. intros. congruence.
Qed.

Lemma view_settle_acquisition k r w :
  view (settle_acquisition k r w)
  = {| v_body := body w; v_video := _video w;
       v_videoPromise := _videoPromise w;
       v_acquisitions :=
         <[k := match r with None => Fulfilled | Some e => Rejected e end]>
           (acquisitions w);
       v_nonce := _video_nonce w |}.
Proof. unfold view. now autorewrite with world. Qed.

Lemma view_fold_targeted fs : forall w, view (fold_left targeted fs w) = view w.
Proof.
  induction fs as [|f fs IH]; intros w; cbn; [reflexivity|].
  rewrite IH. unfold targeted. now destruct (0 <=? _)%Z.
Qed.

Lemma Effect__stop w : Effect (view w) (view (_stop w)).
Proof.
  apply eff_stop; unfold _stop, stopVideo, stopStream.
  1-3: destruct (_video w) eqn:E; by_cases.
  cbn. destruct (_video w) eqn:E; by_cases; now split.
Qed.

Lemma Effect_finally w : Effect (view w) (view (finally w)).
Proof.
  unfold finally. destruct (_controls w); [|now apply eff_none].
  apply (Effect__stop (set_controls None (controls_stop n w))).
Qed.

Lemma Effect__getVideoElement caller call w :
  Effect (view w) (view (_getVideoElement caller call w)).
Proof.
  unfold _getVideoElement.
  destruct (_video w) as [video|] eqn:Ev.
  { apply eff_none, view_of_core.
    unfold continue_with_video. now destruct caller. }
  destruct (_videoPromise w) as [k|] eqn:Ep.
  - apply eff_none.
    repeat case_match; try reflexivity;
      apply view_of_core, core_resume_getVideoElement.
  - set (w1 := set_videoPromise _ _).
    assert (Effect (view w) (view w1)) as H.
    { unfold w1, _startVideo.
      destruct (mediaDevices w).
      + apply (eff_start _ _ (AwaitProbe (_video_nonce w))); cbn; auto.
        unfold view; cbn. now rewrite Ev.
      + apply (eff_start _ _ (Rejected (Error "No mediaDevices supported")));
          cbn; eauto.
        unfold view; cbn. now rewrite Ev. }
    repeat case_match; try exact H.
    now rewrite (view_of_core w1 _ (core_resume_getVideoElement _ _ _ _)).
Qed.

Lemma view_startScan_options o w : view (startScan_options o w) = view w.
Proof.
  unfold startScan_options.
  destruct o as [[[fs|] [d|]]|]; cbn; try reflexivity.
  - match goal with
    | |- view (set_facingMode _ ?x) = _ => change (view x = view w)
    end.
    now rewrite view_fold_targeted.
  - now rewrite view_fold_targeted.
Qed.

(** Every turn is one of the moves of the acquisition state machine. *)
Lemma step_effect (w : World) (ev : Event) :
  Effect (view w) (view (step w ev)).
Proof.
  destruct ev; cbn.
  - (* prepare *)
    apply (Effect__getVideoElement by_prepare _ (set_calls _ w)).
  - (* startScan *)
    unfold startScan, new_call.
    assert (view w
            = view (startScan_options o (set_calls (calls w ++ [Pending]) w)))
      as -> by now rewrite view_startScan_options.
    apply Effect__getVideoElement.
  - (* pauseScanning *)
    apply eff_none. unfold pauseScanning, new_call. by_cases.
  - (* resumeScanning *)
    apply (Effect__getVideoElement by_resumeScanning _ (set_calls _ w)).
  - (* stopScan *)
    unfold stopScan, new_call.
    pose proof (Effect__stop (set_calls (calls w ++ [Pending]) w)) as H.
    by_cases; exact H.
  - apply eff_none. unfold disableTorch, new_call. by_cases.
  - apply eff_none. unfold enableTorch, new_call. by_cases.
  - apply eff_none. unfold toggleTorch, new_call. by_cases.
  - (* media_resolved *)
    destruct (acquisitions w !! k) as [[n|n video f|n video s| |e]|] eqn:Ek;
      try (now apply eff_none).
    + unfold _startVideo_probed, getUserMedia, stopStream; cbn.
      destruct (N.eqb_spec n (_video_nonce w)) as [->|Hn]; cbn.
      * destruct (getElementById_video _) eqn:Eg.
        -- eapply eff_abort; [exact Ek|reflexivity|].
           now rewrite view_settle_acquisition.
        -- apply (eff_advance _ _ k (AwaitProbe (_video_nonce w))
                    (AwaitStream (_video_nonce w) (length (videos w))
                       (_facingMode w))); [exact Ek|reflexivity..].
      * eapply eff_abort; [exact Ek|reflexivity|].
        now rewrite view_settle_acquisition.
    + unfold _startVideo_streamed, getUserMedia, stopStream; cbn.
      destruct (N.eqb_spec n (_video_nonce w)) as [->|Hn]; cbn.
      * apply (eff_advance _ _ k (AwaitStream (_video_nonce w) video f)
                 (AwaitPlay (_video_nonce w) video (length (streams w))));
          [exact Ek|reflexivity..].
      * eapply eff_abort; [exact Ek|reflexivity|].
        now rewrite view_settle_acquisition.
  - (* media_rejected *)
    destruct (acquisitions w !! k) as [[n|n video f|n video s| |e]|] eqn:Ek;
      try (now apply eff_none).
    all: eapply eff_abort; [exact Ek|reflexivity|];
      now rewrite view_settle_acquisition.
  - (* play_resolved *)
    destruct (acquisitions w !! k) as [[n|n video f|n video s| |e]|] eqn:Ek;
      try (now apply eff_none).
    unfold _startVideo_played, stopStream; cbn.
    destruct (N.eqb_spec n (_video_nonce w)) as [->|Hn]; cbn.
    + eapply eff_install; [exact Ek|].
      now rewrite view_settle_acquisition.
    + eapply eff_abort; [exact Ek|reflexivity|].
      now rewrite view_settle_acquisition.
  - (* play_rejected *)
    destruct (acquisitions w !! k) as [[n|n video f|n video s| |e]|] eqn:Ek;
      try (now apply eff_none).
    eapply eff_abort; [exact Ek|reflexivity|].
    now rewrite view_settle_acquisition.
  - (* decode_resolved *)
    apply eff_none. unfold decode_started. by_cases.
  - (* decode_rejected *)
    apply eff_none. unfold decode_failed. by_cases.
  - (* frame *)
    unfold invoke_callback.
    destruct (sessions w !! d) as [s|]; [|now apply eff_none].
    destruct (callback result error); [now apply eff_none| |].
    all: destruct (settled s); [now apply eff_none|].
    all: unfold finish_session.
    all: pose proof (Effect_finally
                       (set_sessions (<[d:=mark_settled s]> (sessions w)) w))
           as H.
    all: by_cases; exact H.
Qed.

Lemma captured_in_flight x n : captured x = Some n -> in_flight x = true.
Proof. now destruct x. Qed.

Lemma Inv_initial m s : Inv (view (initial m s)).
Proof. split; [reflexivity|]. intros k x H. discriminate H. Qed.

Lemma Inv_update (a : View) (k : nat) (x y : Acquisition) (b : View) :
  Inv a ->
  v_acquisitions a !! k = Some x -> in_flight x = true ->
  v_acquisitions b = <[k := y]> (v_acquisitions a) ->
  v_body b = match v_video b with Some video => [video] | None => [] end ->
  (in_flight y = true ->
   v_videoPromise b = Some k /\ v_video b = None
   /\ exists n, captured y = Some n /\ (n <= v_nonce b)%N) ->
  Inv b.
Proof.
  intros [Hb Hf] Hk Hx Ea Hbody Hy. split; [exact Hbody|].
  intros k' x' Hk' Hx'. rewrite Ea in Hk'.
  destruct (decide (k' = k)) as [->|Hne].
  - rewrite list_lookup_insert_eq in Hk' by (eapply lookup_lt_Some; eauto).
    injection Hk' as <-. auto.
  - rewrite list_lookup_insert_ne in Hk' by auto.
    destruct (Hf _ _ Hk' Hx') as (Hp' & _).
    destruct (Hf _ _ Hk Hx) as (Hp & _). congruence.
Qed.

Lemma Inv_effect (a b : View) : Inv a -> Effect a b -> Inv b.
Proof.
  intros HI E. pose proof HI as [Hb Hf].
  destruct E as [->|Ea En Ev Hm|x Ev Ep Hx ->|k x y Hk Cx Cy ->
                 |k x e Hk Hx ->|k video newStream Hk ->].
  - exact HI.
  - split.
    + rewrite Ev. destruct (v_video a) as [video|]; destruct Hm as [_ ->].
      * rewrite Hb. cbn. now rewrite Nat.eqb_refl.
      * exact Hb.
    + intros k x Hk Hx. rewrite Ea in Hk.
      destruct (Hf _ _ Hk Hx) as (Hp & Hv & n & Hc & Hn).
      rewrite Hv in Hm. destruct Hm as [-> _].
      repeat split; auto. exists n. split; [exact Hc|]. lia.
  - split; cbn.
    + now rewrite Hb, Ev.
    + intros k y Hk Hy.
      destruct (decide (k < length (v_acquisitions a))) as [Hlt|Hge].
      * rewrite lookup_app_l in Hk by exact Hlt.
        destruct (Hf _ _ Hk Hy) as (Hp & _). congruence.
      * assert (k = length (v_acquisitions a)) as ->.
        { apply lookup_lt_Some in Hk. rewrite length_app in Hk. cbn in Hk. lia. }
        rewrite lookup_app_r, Nat.sub_diag in Hk by lia.
        injection Hk as <-.
        destruct Hx as [->|[e ->]]; [|discriminate].
        repeat split. exists (v_nonce a). split; [reflexivity|lia].
  - apply (Inv_update a k x y); cbn; auto.
    + eapply captured_in_flight; eauto.
    + intros _. destruct (Hf _ _ Hk (captured_in_flight _ _ Cx)) as (? & ? & _).
      repeat split; auto. exists (v_nonce a). split; [exact Cy|lia].
  - apply (Inv_update a k x (Rejected e)); cbn; auto. discriminate.
  - destruct (Hf _ _ Hk eq_refl) as (Hp & Hv & _).
    apply (Inv_update a k _ Fulfilled _ HI Hk eq_refl); cbn; auto;
      [|discriminate].
    now rewrite Hb, Hv.
Qed.

Lemma Inv_run (evs : list Event) : forall w,
  Inv (view w) -> Inv (view (run w evs)).
Proof.
  induction evs as [|ev evs IH]; intros w HI; cbn; [exact HI|].
  apply IH. eapply Inv_effect; [exact HI|apply step_effect].
Qed.

Lemma Inv_reachable w : reachable w -> Inv (view w).
Proof. intros (m & s & evs & ->). apply Inv_run, Inv_initial. Qed.

(** ** One surface, one acquisition *)

Lemma beyond_options_fold_targeted fs : forall w,
  beyond_options (fold_left targeted fs w) = beyond_options w.
Proof.
  induction fs as [|f fs IH]; intros w; cbn; [reflexivity|].
  rewrite IH. unfold targeted. now destruct (0 <=? _)%Z.
Qed.

Lemma beyond_options_startScan_options o w :
  beyond_options (startScan_options o w) = beyond_options w.
Proof.
  unfold startScan_options.
  destruct o as [[[fs|] [d|]]|]; cbn; try reflexivity.
  - match goal with
    | |- beyond_options (set_facingMode _ ?x) = _ =>
        change (beyond_options x = beyond_options w)
    end.
    now rewrite beyond_options_fold_targeted.
  - now rewrite beyond_options_fold_targeted.
Qed.

(** A caller that finds an acquisition pending joins the callers
    awaiting its promise. *)
Lemma _getVideoElement_pending caller call w k x :
  _video w = None -> _videoPromise w = Some k ->
  acquisitions w !! k = Some x -> in_flight x = true ->
  _getVideoElement caller call w
  = set_waiters
      (waiters w ++
       [{| awaited := k; waiter_call := call; waiter_caller := caller |}]) w.
Proof.
  intros Ev Ep Ek Hx. unfold _getVideoElement. rewrite Ev, Ep, Ek.
  now destruct x.
Qed.

(** C5: in every state the plugin can reach, whatever calls and
    platform events led there, the document holds at most one video
    element, at most one acquisition is pending, and a [prepare],
    [startScan] or [resumeScanning] made while one is pending starts no
    acquisition: the call is left pending, awaiting the promise of the
    acquisition already under way. *)
Theorem one_surface_one_acquisition (w : World) :
  reachable w ->
  length (body w) <= 1
  /\ (forall k x k' x',
        acquisitions w !! k = Some x -> in_flight x = true ->
        acquisitions w !! k' = Some x' -> in_flight x' = true -> k = k')
  /\ (forall k x caller o,
        acquisitions w !! k = Some x -> in_flight x = true ->
        let w' := step w (call_of caller o) in
        acquisitions w' = acquisitions w
        /\ streams w' = streams w
        /\ body w' = body w
        /\ calls w' = calls w ++ [Pending]
        /\ waiters w'
           = waiters w ++
             [{| awaited := k; waiter_call := length (calls w);
                 waiter_caller := caller |}]).
Proof.
  intros Hr. destruct (Inv_reachable w Hr) as [Hb Hf]. cbn in Hb, Hf.
  split; [|split].
  - rewrite Hb. destruct (_video w); cbn; lia.
  - intros k x k' x' Hk Hx Hk' Hx'.
    destruct (Hf _ _ Hk Hx) as (Hp & _).
    destruct (Hf _ _ Hk' Hx') as (Hp' & _). congruence.
  - intros k x caller o Hk Hx.
    destruct (Hf _ _ Hk Hx) as (Hp & Hv & _).
    destruct caller; cbn.
    + unfold prepare, new_call.
      rewrite (_getVideoElement_pending _ _ _ k x) by assumption.
      repeat split.
    + unfold startScan, new_call.
      set (w1 := set_calls (calls w ++ [Pending]) w).
      pose proof (beyond_options_startScan_options o w1) as Hw.
      unfold beyond_options in Hw. injection Hw. intros.
      rewrite (_getVideoElement_pending _ _ _ k x) by (cbn in *; congruence).
      cbn. repeat split; congruence.
    + unfold resumeScanning, new_call.
      rewrite (_getVideoElement_pending _ _ _ k x) by assumption.
      repeat split.
Qed.

Lemma one_surface_one_acquisition_witness :
  let w := run (initial true false) [call_startScan None] in
  let w' := step w (call_of by_prepare None) in
  acquisitions w' = acquisitions w
  /\ streams w' = streams w
  /\ body w' = body w
  /\ calls w' = calls w ++ [Pending]
  /\ waiters w'
     = waiters w ++
       [{| awaited := 0; waiter_call := length (calls w);
           waiter_caller := by_prepare |}].
Proof.
  assert (reachable (run (initial true false) [call_startScan None])) as Hr
    by (now exists true, false, [call_startScan None]).
  apply (proj2 (proj2 (one_surface_one_acquisition _ Hr))
           0 (AwaitProbe 0) by_prepare None); reflexivity.
Defined.

(** ** Cancellation by generation *)

Lemma Effect_nonce a b : Effect a b -> (v_nonce a <= v_nonce b)%N.
Proof.
  intros [->|_ -> _ _|x _ _ _ ->|k x y _ _ _ ->|k x e _ _ ->|k v s _ ->];
    cbn; lia.
Qed.

(** An acquisition only moves when its captured generation is current,
    except to be rejected. *)
Lemma Effect_lookup a b k x :
  Effect a b -> v_acquisitions a !! k = Some x ->
  v_acquisitions b !! k = Some x
  \/ in_flight x = true
     /\ ((exists e, v_acquisitions b !! k = Some (Rejected e))
         \/ captured x = Some (v_nonce a)).
Proof.
  intros E Hk.
  destruct E as [->|Ea _ _ _|y _ _ _ ->|k0 x0 y Hk0 Cx Cy ->
                 |k0 x0 e Hk0 Hx0 ->|k0 video newStream Hk0 ->]; cbn.
  - now left.
  - left. now rewrite Ea.
  - left. apply lookup_app_l_Some. exact Hk.
  - destruct (decide (k = k0)) as [->|Hne].
    + right. assert (x = x0) as -> by congruence.
      split; [eapply captured_in_flight; eauto|]. now right.
    + left. now rewrite list_lookup_insert_ne.
  - destruct (decide (k = k0)) as [->|Hne].
    + right. assert (x = x0) as -> by congruence.
      split; [exact Hx0|]. left. exists e.
      apply list_lookup_insert_eq. eapply lookup_lt_Some; eauto.
    + left. now rewrite list_lookup_insert_ne.
  - destruct (decide (k = k0)) as [->|Hne].
    + right. assert (x = AwaitPlay (v_nonce a) video newStream) as ->
        by congruence.
      split; [reflexivity|]. now right.
    + left. now rewrite list_lookup_insert_ne.
Qed.

Lemma rejected_run (evs : list Event) : forall w k e,
  acquisitions w !! k = Some (Rejected e) ->
  acquisitions (run w evs) !! k = Some (Rejected e).
Proof.
  induction evs as [|ev evs IH]; intros w k e Hk; cbn; [exact Hk|].
  apply IH.
  destruct (Effect_lookup _ _ k _ (step_effect w ev) Hk) as [H|[H _]];
    [exact H|discriminate H].
Qed.

(** Once the counter has passed the generation an acquisition captured,
    the acquisition stays where it is until it is rejected. *)
Lemma stale_run (evs : list Event) : forall w k x n,
  acquisitions w !! k = Some x -> captured x = Some n ->
  (n < _video_nonce w)%N ->
  (acquisitions (run w evs) !! k = Some x
   /\ (n < _video_nonce (run w evs))%N)
  \/ exists e, acquisitions (run w evs) !! k = Some (Rejected e).
Proof.
  induction evs as [|ev evs IH]; intros w k x n Hk Hc Hn; cbn; [now left|].
  pose proof (Effect_nonce _ _ (step_effect w ev)) as Hm. cbn in Hm.
  destruct (Effect_lookup _ _ k _ (step_effect w ev) Hk)
    as [H|[_ [[e H]|H]]]; cbn in H.
  - apply (IH _ _ _ n H Hc). lia.
  - right. exists e. now apply rejected_run.
  - rewrite Hc in H. injection H as ->. lia.
Qed.

(** At each of the three checkpoints a stale generation throws
    [ScanCanceled]; nothing is installed. *)
Lemma stale_checkpoint w k x n tracks :
  acquisitions w !! k = Some x -> captured x = Some n ->
  n <> _video_nonce w ->
  let w' := step w (resolution x k tracks) in
  (exists message,
     acquisitions w' !! k = Some (Rejected (ScanCanceled message)))
  /\ _video w' = _video w /\ body w' = body w.
Proof.
  intros Hk Hc Hn.
  assert (k < length (acquisitions w)) as Hlt by (eapply lookup_lt_Some; eauto).
  apply N.eqb_neq in Hn.
  destruct x as [n0|n0 video f|n0 video s| |e]; cbn in Hc; try discriminate;
    injection Hc as ->; cbn; rewrite Hk.
  - unfold _startVideo_probed, getUserMedia, stopStream; cbn. rewrite Hn; cbn.
    autorewrite with world; cbn.
    rewrite list_lookup_insert_eq by exact Hlt. eauto.
  - unfold _startVideo_streamed, getUserMedia, stopStream; cbn. rewrite Hn; cbn.
    autorewrite with world; cbn.
    rewrite list_lookup_insert_eq by exact Hlt. eauto.
  - unfold _startVideo_played, stopStream; cbn. rewrite Hn; cbn.
    autorewrite with world; cbn.
    rewrite list_lookup_insert_eq by exact Hlt. eauto.
Qed.

Lemma stopScan_nonce w : _video_nonce (stopScan w) = N.succ (_video_nonce w).
Proof. unfold stopScan, new_call, settle_call, _stop. by_cases. Qed.

Lemma stopScan_acquisitions w : acquisitions (stopScan w) = acquisitions w.
Proof.
  unfold stopScan, new_call, settle_call, _stop, stopVideo, stopStream.
  by_cases.
Qed.

(** C3: every [stopScan] adds exactly one to [_video_nonce]; and an
    acquisition that was under way when [stopScan] ran never continues:
    through all later turns it is either still suspended at the same
    [await] -- and then the resolution of the request it awaits makes it
    throw [ScanCanceled] with nothing installed -- or already rejected. *)
Theorem stopScan_invalidates_acquisitions (w : World) (k : nat) (x : Acquisition) :
  reachable w ->
  acquisitions w !! k = Some x -> in_flight x = true ->
  (forall w0, _video_nonce (stopScan w0) = N.succ (_video_nonce w0))
  /\ forall evs,
       let w' := run (stopScan w) evs in
       (acquisitions w' !! k = Some x
        /\ forall tracks,
             let w'' := step w' (resolution x k tracks) in
             (exists message,
                acquisitions w'' !! k = Some (Rejected (ScanCanceled message)))
             /\ _video w'' = _video w' /\ body w'' = body w')
       \/ exists e, acquisitions w' !! k = Some (Rejected e).
Proof.
  intros Hr Hk Hx. split; [exact stopScan_nonce|]. intros evs w'. subst w'.
  destruct (Inv_reachable w Hr) as [_ Hf].
  destruct (Hf _ _ Hk Hx) as (_ & _ & n & Hc & Hn). cbn in Hn.
  destruct (stale_run evs (stopScan w) k x n) as [[H Hlt]|H].
  - now rewrite stopScan_acquisitions.
  - exact Hc.
  - rewrite stopScan_nonce. lia.
  - left. split; [exact H|]. intros tracks.
    apply (stale_checkpoint _ _ _ n); auto. lia.
  - now right.
Qed.

Lemma stopScan_invalidates_acquisitions_witness :
  let w := run (initial true false) [call_startScan None] in
  (forall w0, _video_nonce (stopScan w0) = N.succ (_video_nonce w0))
  /\ forall evs,
       let w' := run (stopScan w) evs in
       (acquisitions w' !! 0 = Some (AwaitProbe 0)
        /\ forall tracks,
             let w'' := step w' (media_resolved 0 tracks) in
             (exists message,
                acquisitions w'' !! 0 = Some (Rejected (ScanCanceled message)))
             /\ _video w'' = _video w' /\ body w'' = body w')
       \/ exists e, acquisitions w' !! 0 = Some (Rejected e).
Proof.
  intros w.
  apply (stopScan_invalidates_acquisitions w 0 (AwaitProbe 0)).
  - now exists true, false, [call_startScan None].
  - reflexivity.
  - reflexivity.
Defined.

(** ** The decode callback and the scan promise *)

Lemma calls_finally w : calls (finally w) = calls w.
Proof. unfold finally, _stop, stopVideo, stopStream, controls_stop. by_cases. Qed.

Lemma calls_finish_session d s o w :
  calls (finish_session d s o w)
  = <[session_call s :=
        match o with
        | inl e => Failed e
        | inr r =>
            match session_caller s with
            | by_startScan => Resolved (VScan r)
            | _ => Resolved VVoid
            end
        end]> (calls w).
Proof.
  unfold finish_session.
  destruct o as [e|r]; [|destruct (session_caller s)];
    unfold settle_call; cbn; now rewrite calls_finally.
Qed.

Lemma recoverable_frames_run d s (fs : list (option Result * Exception)) :
  Forall (fun f => recoverable (snd f) = true) fs ->
  forall w, sessions w !! d = Some s ->
  calls (run w (error_frames d fs)) = calls w
  /\ sessions (run w (error_frames d fs)) = sessions w.
Proof.
  induction 1 as [|[result e] fs He _ IH]; intros w Hd; cbn; [now split|].
  cbn in He. unfold invoke_callback. rewrite Hd. cbn. rewrite He.
  apply (IH (set_console (console w ++ [console_warn (exception_name e)]) w)).
  exact Hd.
Qed.

(** The test of the code accepts the three conditions the specification
    names, and no other exception. *)
Lemma spec_per_frame_condition_recoverable e :
  spec_per_frame_condition e <-> recoverable e = true.
Proof.
  unfold spec_per_frame_condition. destruct e; cbn; split.
  all: try (intros _; auto; fail).
  - intros [H|[H|H]]; discriminate H.
  - discriminate.
Qed.

(** C6: while the promise of a [startScan] is pending, callbacks that
    carry a [NotFoundException], a [ChecksumException] or a
    [FormatException] leave it pending, however many the engine sends
    and whatever result comes with them; any other callback settles it:
    an exception of any other class rejects it with that exception, a
    result that bears text resolves it with that text as content, and
    it is rejected when no text can be extracted. *)
Theorem callback_settles_scan_promise (w : World) (d : nat) (s : DecodeSession) :
  sessions w !! d = Some s ->
  session_caller s = by_startScan ->
  settled s = false ->
  calls w !! session_call s = Some Pending ->
  (forall fs,
     Forall (fun f => spec_per_frame_condition (snd f)) fs ->
     calls (run w (error_frames d fs)) = calls w
     /\ sessions (run w (error_frames d fs)) !! d = Some s)
  /\ (forall result error,
        let o := calls (step w (frame d result error)) !! session_call s in
        match error with
        | Some NotFoundException | Some ChecksumException
        | Some FormatException => o = Some Pending
        | Some (OtherException name) =>
            o = Some (Failed (EngineError (OtherException name)))
        | None =>
            match extractable_text result with
            | Some text =>
                exists r, result = Some r
                  /\ o = Some (Resolved
                                 (VScan {| hasContent := true; content := text;
                                           format :=
                                             toString (getBarcodeFormat r) |}))
            | None => exists message, o = Some (Failed (Error message))
            end
        end).
Proof.
  intros Hd Hc Hs Hp. split.
  - intros fs Hfs.
    assert (Forall (fun f => recoverable (snd f) = true) fs) as Hfs'.
    { eapply Forall_impl; [exact Hfs|].
      intros f Hf. now apply spec_per_frame_condition_recoverable. }
    destruct (recoverable_frames_run d s fs Hfs' w Hd) as [E1 E2].
    now rewrite E1, E2.
  - intros result error o. subst o. cbn. unfold invoke_callback.
    assert (session_call s < length (calls w)) as Hlt
      by (eapply lookup_lt_Some; eauto).
    rewrite Hd. unfold callback, extractable_text.
    destruct error as [e|].
    + destruct e as [| | |name]; cbn [recoverable]; try exact Hp.
      rewrite Hs, calls_finish_session.
      now apply list_lookup_insert_eq.
    + destruct result as [r|].
      * cbv zeta. destruct (String.eqb (getText r) "");
          rewrite Hs, calls_finish_session, ?Hc.
        -- eexists. now apply list_lookup_insert_eq.
        -- exists r. split; [reflexivity|]. now apply list_lookup_insert_eq.
      * rewrite Hs, calls_finish_session.
        eexists. now apply list_lookup_insert_eq.
Qed.

Lemma callback_settles_scan_promise_witness :
  calls (run decoding
           (error_frames 0
              [(None, NotFoundException); (None, ChecksumException);
               (Some {| getText := "hello"; getBarcodeFormat := 11 |},
                FormatException)]))
  = [Pending]
  /\ calls (step decoding (frame 0 None (Some NotFoundException))) !! 0
     = Some Pending
  /\ calls (step decoding (frame 0 None (Some (OtherException "TypeError"))))
       !! 0
     = Some (Failed (EngineError (OtherException "TypeError")))
  /\ exists r,
       Some {| getText := "hello"; getBarcodeFormat := 11 |} = Some r
       /\ calls (step decoding
                   (frame 0
                      (Some {| getText := "hello"; getBarcodeFormat := 11 |})
                      None)) !! 0
          = Some (Resolved
                    (VScan {| hasContent := true; content := "hello";
                              format := toString (getBarcodeFormat r) |})).
Proof.
  destruct (callback_settles_scan_promise decoding 0
              {| session_call := 0; session_caller := by_startScan;
                 session_video := 0; hints := None;
                 starting := false; settled := false |}
              eq_refl eq_refl eq_refl eq_refl) as [H1 H2].
  split; [|split; [|split]].
  - refine (proj1 (H1 _ _)).
    unfold spec_per_frame_condition.
    repeat (constructor; [cbn; auto|]). constructor.
  - exact (H2 None (Some NotFoundException)).
  - exact (H2 None (Some (OtherException "TypeError"))).
  - exact (H2 (Some {| getText := "hello"; getBarcodeFormat := 11 |}) None).
Defined.

(** ** Targeted formats *)

Lemma fold_targeted_formats fs : forall w,
  _formats (fold_left targeted fs w)
  = _formats w ++ map (fun _ => 0%N) (List.filter recognized fs)
  /\ console (fold_left targeted fs w)
     = console w
       ++ map console_error (List.filter (fun f => negb (recognized f)) fs).
Proof.
  induction fs as [|f fs IH]; intros w.
  - cbn. now rewrite !app_nil_r.
  - cbn [fold_left List.filter]. destruct (IH (targeted w f)) as [-> ->].
    unfold targeted. fold (recognized f).
    destruct (recognized f); cbn [negb map _formats console set_formats set_console];
      rewrite <- ?app_assoc; now split.
Qed.

(** C7 fails on the code: whatever names are targeted, every recognized
    one contributes the number 0 to [_formats] -- the value of
    [BarcodeFormat.AZTEC] -- and not its own value; unrecognized names
    are logged and skipped.  Targeting [QR_CODE], whose value is 11,
    hands the engine [POSSIBLE_FORMATS = [0]]. *)
Theorem targeted_formats_all_become_zero :
  (forall fs d w,
     let w' := startScan_options
                 (Some {| targetedFormats := Some fs; cameraDirection := d |})
                 w in
     _formats w' = map (fun _ => 0%N) (List.filter recognized fs)
     /\ console w'
        = console w
          ++ map console_error (List.filter (fun f => negb (recognized f)) fs))
  /\ hints_of_startScan
       (Some {| targetedFormats := Some ["QR_CODE"]; cameraDirection := None |})
     = Some (Some [0%N])
  /\ BarcodeFormat "QR_CODE" = Some 11%N
  /\ BarcodeFormat "AZTEC" = Some 0%N.
Proof.
  split; [|repeat split].
  intros fs d w w'. subst w'. unfold startScan_options.
  set (w1 := set_formats [] _).
  destruct (fold_targeted_formats fs w1) as [E1 E2].
  destruct d as [d|]; cbn; rewrite ?E1, ?E2; now split.
Qed.

(** ** A rejected acquisition is never replaced

    [_videoPromise] is reset by the arrow function only after
    [_startVideo] has returned, and by [_stop] only when [_video] is
    set.  When [_startVideo] throws, the rejected promise stays in
    [_videoPromise]. *)

Lemma poisoned_settled a e k x :
  Inv a -> poisoned a e -> v_acquisitions a !! k = Some x ->
  in_flight x = false.
Proof.
  intros [_ Hf] (_ & k0 & Hp & Hk0) Hk.
  destruct (in_flight x) eqn:Hx; [|reflexivity].
  destruct (Hf _ _ Hk Hx) as (Hp' & _).
  assert (k = k0) as -> by congruence.
  assert (x = Rejected e) as -> by congruence. discriminate Hx.
Qed.

Lemma poisoned_effect a b e : Inv a -> Effect a b -> poisoned a e -> poisoned b e.
Proof.
  intros HI E HP. pose proof HP as (Hv & k & Hp & Hk).
  destruct E as [->|Ea _ Ev Hm|x _ Ep _ ->|k0 x y Hk0 Cx _ ->
                 |k0 x e0 Hk0 Hx0 ->|k0 video newStream Hk0 ->].
  - exact HP.
  - split; [exact Ev|]. rewrite Hv in Hm. destruct Hm as [Em _].
    exists k. now rewrite Em, Ea.
  - congruence.
  - pose proof (poisoned_settled a e k0 x HI HP Hk0) as Hx.
    apply captured_in_flight in Cx. congruence.
  - pose proof (poisoned_settled a e k0 x HI HP Hk0). congruence.
  - pose proof (poisoned_settled a e k0 _ HI HP Hk0). discriminate.
Qed.

Lemma poisoned_run (evs : list Event) : forall w e,
  Inv (view w) -> poisoned (view w) e -> poisoned (view (run w evs)) e.
Proof.
  induction evs as [|ev evs IH]; intros w e HI HP; cbn; [exact HP|].
  apply IH.
  - eapply Inv_effect; [exact HI|apply step_effect].
  - eapply poisoned_effect; [exact HI|apply step_effect|exact HP].
Qed.

Lemma _getVideoElement_poisoned caller call w e :
  poisoned (view w) e ->
  _getVideoElement caller call w = settle_call call (Failed e) w.
Proof.
  intros (Hv & k & Hp & Hk). cbn in Hv, Hp, Hk.
  unfold _getVideoElement. now rewrite Hv, Hp, Hk.
Qed.

(** Every later call that needs the video is rejected in the turn in
    which it is made, with the reason of the old rejection, and starts
    no acquisition. *)
Lemma poisoned_call w e caller o :
  poisoned (view w) e ->
  let w' := step w (call_of caller o) in
  calls w' = calls w ++ [Failed e] /\ acquisitions w' = acquisitions w.
Proof.
  intros HP.
  assert (forall w1, view w1 = view w -> calls w1 = calls w ++ [Pending] ->
            calls (_getVideoElement caller (length (calls w)) w1)
            = calls w ++ [Failed e]
            /\ acquisitions (_getVideoElement caller (length (calls w)) w1)
               = acquisitions w) as H.
  { intros w1 Ew Ec. rewrite (_getVideoElement_poisoned _ _ _ e)
      by (now rewrite Ew).
    split; [now apply calls_settle_call_fresh|].
    cbn. change (v_acquisitions (view w1) = v_acquisitions (view w)).
    now rewrite Ew. }
  destruct caller; cbn.
  - apply H; reflexivity.
  - unfold startScan, new_call. apply H.
    + now rewrite view_startScan_options.
    + pose proof (beyond_options_startScan_options o
                    (set_calls (calls w ++ [Pending]) w)) as Hb.
      unfold beyond_options in Hb. injection Hb. intros. assumption.
  - apply H; reflexivity.
Qed.

(** Once poisoned, no stream is created or stopped any more. *)
Lemma poisoned_streams w e ev :
  Inv (view w) -> poisoned (view w) e -> streams (step w ev) = streams w.
Proof.
  intros HI HP. pose proof HP as (Hv & k & Hp & Hk). cbn in Hv, Hp, Hk.
  pose proof (fun k x => poisoned_settled (view w) e k x HI HP) as Hs.
  cbn in Hs.
  assert (forall caller call w1, streams w1 = streams w ->
            streams (_getVideoElement caller call w1) = streams w) as Hg.
  { intros caller call w1 <-. unfold _getVideoElement,
      resume_getVideoElement, continue_with_video,
      _getFirstResultFromReader, _startVideo, settle_call. by_cases. }
  destruct ev; cbn.
  - now apply Hg.
  - apply Hg. unfold startScan, new_call.
    pose proof (beyond_options_startScan_options o
                  (set_calls (calls w ++ [Pending]) w)) as Hb.
    unfold beyond_options in Hb. injection Hb. intros. assumption.
  - unfold pauseScanning, new_call, settle_call, controls_stop. by_cases.
  - now apply Hg.
  - unfold stopScan, new_call, settle_call, controls_stop, _stop. cbn.
    rewrite Hv. by_cases.
  - unfold disableTorch, new_call, settle_call, switchTorch. by_cases.
  - unfold enableTorch, new_call, settle_call, switchTorch. by_cases.
  - unfold toggleTorch, new_call, settle_call, switchTorch. by_cases.
  - destruct (acquisitions w !! k0) as [x|] eqn:E; [|reflexivity].
    specialize (Hs _ _ E). now destruct x.
  - destruct (acquisitions w !! k0) as [x|] eqn:E; [|reflexivity].
    specialize (Hs _ _ E). now destruct x.
  - destruct (acquisitions w !! k0) as [x|] eqn:E; [|reflexivity].
    specialize (Hs _ _ E). now destruct x.
  - destruct (acquisitions w !! k0) as [x|] eqn:E; [|reflexivity].
    specialize (Hs _ _ E). now destruct x.
  - unfold decode_started. by_cases.
  - unfold decode_failed. by_cases.
  - unfold invoke_callback, finish_session, finally, settle_call,
      controls_stop, _stop. cbn. rewrite Hv. by_cases.
Qed.

Lemma poisoned_streams_run (evs : list Event) : forall w e,
  Inv (view w) -> poisoned (view w) e -> streams (run w evs) = streams w.
Proof.
  induction evs as [|ev evs IH]; intros w e HI HP; [reflexivity|].
  change (streams (run (step w ev) evs) = streams w).
  rewrite (IH (step w ev) e).
  - eapply poisoned_streams; eauto.
  - eapply Inv_effect; [exact HI|apply step_effect].
  - eapply poisoned_effect; [exact HI|apply step_effect|exact HP].
Qed.

(** ** Who holds the live stream

    Outside the poisoned states, a track is live only in the stream
    attached to the current video element, or in the one the pending
    acquisition is about to play. *)

Lemma live_tracks_0 w : (forall s, ~ has_live w s) -> live_tracks w = 0.
Proof.
  unfold live_tracks, has_live. intros H.
  induction (streams w) as [|tr l IH] using rev_ind; [reflexivity|].
  rewrite concat_app, List.filter_app, length_app. cbn. rewrite app_nil_r.
  rewrite IH.
  - destruct (List.filter _ tr) as [|t ?] eqn:E; [reflexivity|].
    exfalso. apply (H (length l)). exists tr. split.
    + rewrite lookup_app_r by auto. now rewrite Nat.sub_diag.
    + assert (In t (List.filter
                      (fun t => match t with live => true | ended => false end)
                      tr)) as Hin by (rewrite E; now left).
      apply List.filter_In in Hin. destruct Hin as [Hin Ht].
      now destruct t.
  - intros s (tr' & Hs & Hin). apply (H s). exists tr'. split; [|exact Hin].
    now apply lookup_app_l_Some.
Qed.

Lemma has_live_ended (l : list MediaStream) s s' tr :
  alter (map (fun _ => ended)) s l !! s' = Some tr -> In live tr ->
  s' <> s /\ l !! s' = Some tr.
Proof.
  intros H Hin. destruct (decide (s' = s)) as [->|Hne].
  - rewrite list_lookup_alter_eq in H.
    apply fmap_Some in H as (tr0 & _ & ->). exfalso.
    apply in_map_iff in Hin. destruct Hin as (? & ? & _). discriminate.
  - rewrite list_lookup_alter_ne in H by auto. now split.
Qed.

Lemma deep_of_core w w' : core w' = core w -> deep w' = deep w.
Proof. unfold core, deep. intros H. injection H. intros. congruence. Qed.

Lemma Owned_ext w w' : deep w' = deep w -> Owned w -> Owned w'.
Proof.
  unfold deep. intros H. injection H. intros Ea Ep Ev Evs Es [H1 H2 H3].
  split.
  - intros s. unfold has_live, owner. rewrite Es, Evs, Ev, Ep, Ea.
    apply H1.
  - intros k n video s. rewrite Ea, Evs. apply H2.
  - intros k n video f. rewrite Ea, Evs. apply H3.
Qed.

Lemma Safe_ext w w' : deep w' = deep w -> Safe w -> Safe w'.
Proof.
  intros H [[e (Hv & k & Hp & Hk)]|HO]; [left|right].
  - unfold deep in H. injection H. intros Ea Ep Ev Evs Es.
    exists e. unfold poisoned; cbn in *.
    split; [congruence|]. exists k. split; congruence.
  - now apply (Owned_ext w).
Qed.

Lemma poisoned_settle_acquisition k e w :
  _video w = None -> _videoPromise w = Some k ->
  k < length (acquisitions w) ->
  poisoned (view (settle_acquisition k (Some e) w)) e.
Proof.
  intros Hv Hp Hk. rewrite view_settle_acquisition. split; [exact Hv|].
  exists k. split; [exact Hp|]. cbn. now apply list_lookup_insert_eq.
Qed.

Lemma Safe__stop w : Inv (view w) -> Safe w -> Safe (_stop w).
Proof.
  intros [_ Hf] [[e HP]|HO].
  { left. exists e. destruct HP as (Hv & k & Hp & Hk). cbn in *.
    unfold _stop, poisoned. rewrite Hv. cbn. split; [exact Hv|]. now exists k. }
  cbn in Hf. unfold _stop.
  destruct (_video w) as [video|] eqn:Ev.
  2:{ right. now apply (Owned_ext w). }
  right. destruct HO as [H1 H2 H3].
  assert (forall k x, acquisitions w !! k = Some x -> in_flight x = false)
    as Hn.
  { intros k x Hk. destruct (in_flight x) eqn:Hx; [|reflexivity].
    destruct (Hf _ _ Hk Hx) as (_ & ? & _). congruence. }
  unfold stopVideo, stopStream. split.
  - intros s (tr & Hs & Hin). exfalso.
    assert (owner w = match videos w !! video with
                      | Some el => srcObject el
                      | None => None
                      end) as Ho by (unfold owner; now rewrite Ev).
    revert Hs. cbn. rewrite list_lookup_alter_eq.
    destruct (videos w !! video) as [el|] eqn:Eel; cbn.
    + destruct (srcObject el) as [s0|] eqn:Es0; cbn; intros Hs.
      * destruct (has_live_ended _ _ _ _ Hs Hin) as [Hne Hs'].
        assert (owner w = Some s) as Ho' by (apply H1; now exists tr).
        congruence.
      * assert (owner w = Some s) as Ho' by (apply H1; now exists tr).
        congruence.
    + intros Hs.
      assert (owner w = Some s) as Ho' by (apply H1; now exists tr).
      congruence.
  - intros k n video' s Hk. exfalso.
    assert (acquisitions w !! k = Some (AwaitPlay n video' s)) as Hk'.
    { revert Hk. by_cases. }
    specialize (Hn _ _ Hk'). discriminate Hn.
  - intros k n video' f Hk. exfalso.
    assert (acquisitions w !! k = Some (AwaitStream n video' f)) as Hk'.
    { revert Hk. by_cases. }
    specialize (Hn _ _ Hk'). discriminate Hn.
Qed.

Lemma lookup_snoc_Some {A} (l : list A) (x y : A) (k : nat) :
  (l ++ [x]) !! k = Some y -> l !! k = Some y \/ (k = length l /\ y = x).
Proof.
  intros H. destruct (decide (k < length l)) as [Hlt|Hge].
  - left. now rewrite lookup_app_l in H.
  - right. assert (k = length l) as ->.
    { apply lookup_lt_Some in H. rewrite length_app in H. cbn in H. lia. }
    rewrite lookup_app_r, Nat.sub_diag in H by auto.
    split; [reflexivity|]. now injection H.
Qed.

Lemma not_poisoned_idle w e :
  _videoPromise w = None -> ~ poisoned (view w) e.
Proof. intros Hp (_ & k & Hp' & _). cbn in Hp'. congruence. Qed.

Lemma Safe__getVideoElement caller call w :
  Inv (view w) -> Safe w -> Safe (_getVideoElement caller call w).
Proof.
  intros HI HS. unfold _getVideoElement.
  destruct (_video w) as [video|] eqn:Ev.
  { apply (Safe_ext w); [|exact HS]. apply deep_of_core.
    unfold continue_with_video. now destruct caller. }
  destruct (_videoPromise w) as [k|] eqn:Ep.
  { apply (Safe_ext w); [|exact HS].
    repeat case_match; try reflexivity;
      apply deep_of_core, core_resume_getVideoElement. }
  set (w1 := set_videoPromise _ _).
  assert (Safe w1) as H1.
  { unfold w1, _startVideo. destruct (mediaDevices w).
    - right. destruct HS as [[e HP]|[H1 H2 H3]];
        [now apply not_poisoned_idle in HP|].
      split; cbn.
      + intros s Hs. exfalso.
        assert (owner w = Some s) as Ho by (apply H1; exact Hs).
        unfold owner in Ho. rewrite Ev, Ep in Ho. discriminate.
      + intros k n video s Hk.
        apply lookup_snoc_Some in Hk as [Hk|[_ Hk]]; [|discriminate].
        eapply H2; eauto.
      + intros k n video f Hk.
        apply lookup_snoc_Some in Hk as [Hk|[_ Hk]]; [|discriminate].
        eapply H3; eauto.
    - left. exists (Error "No mediaDevices supported").
      split; [exact Ev|]. exists (length (acquisitions w)).
      split; [reflexivity|]. cbn.
      rewrite lookup_app_r, Nat.sub_diag by auto. reflexivity. }
  assert (forall w2, deep w2 = deep w1 -> Safe w2) as H
    by (intros w2 E; now apply (Safe_ext w1)).
  repeat case_match; apply H; try reflexivity;
    apply deep_of_core, core_resume_getVideoElement.
Qed.

Lemma Safe_startScan_options o w : Safe w -> Safe (startScan_options o w).
Proof.
  apply Safe_ext.
  pose proof (beyond_options_startScan_options o w) as H.
  unfold beyond_options in H. injection H. intros. unfold deep. congruence.
Qed.

Lemma Safe_finally w : Inv (view w) -> Safe w -> Safe (finally w).
Proof.
  intros HI HS. unfold finally. destruct (_controls w); [|exact HS].
  apply Safe__stop; [exact HI|]. now apply (Safe_ext w).
Qed.

Lemma Safe_settle_rejected k x e w w0 :
  Inv (view w) -> acquisitions w !! k = Some x -> in_flight x = true ->
  _video w0 = _video w -> _videoPromise w0 = _videoPromise w ->
  acquisitions w0 = acquisitions w ->
  Safe (settle_acquisition k (Some e) w0).
Proof.
  intros [_ Hf] Hk Hx Ev Ep Ea. cbn in Hf.
  destruct (Hf _ _ Hk Hx) as (Hp & Hv & _).
  left. exists e. apply poisoned_settle_acquisition; try congruence.
  rewrite Ea. eapply lookup_lt_Some; eauto.
Qed.

Lemma only_pending (w : World) k x z k' y :
  Inv (view w) -> acquisitions w !! k = Some x -> in_flight x = true ->
  <[k := z]> (acquisitions w) !! k' = Some y -> in_flight y = true ->
  k' = k /\ y = z.
Proof.
  intros [_ Hf] Hk Hx Hk' Hy. cbn in Hf.
  destruct (decide (k' = k)) as [->|Hne].
  - rewrite list_lookup_insert_eq in Hk' by (eapply lookup_lt_Some; eauto).
    split; congruence.
  - rewrite list_lookup_insert_ne in Hk' by auto.
    destruct (Hf _ _ Hk Hx) as (? & _). destruct (Hf _ _ Hk' Hy) as (? & _).
    congruence.
Qed.

Lemma Owned_pending w k x :
  Inv (view w) -> Safe w -> acquisitions w !! k = Some x ->
  in_flight x = true -> Owned w.
Proof.
  intros HI [[e HP]|HO] Hk Hx; [|exact HO].
  pose proof (poisoned_settled _ _ _ _ HI HP Hk). congruence.
Qed.

Lemma owner_pending w k x :
  Inv (view w) -> acquisitions w !! k = Some x -> in_flight x = true ->
  owner w = match x with AwaitPlay _ _ s => Some s | _ => None end.
Proof.
  intros [_ Hf] Hk Hx. destruct (Hf _ _ Hk Hx) as (Hp & Hv & _).
  cbn in Hp, Hv. unfold owner. now rewrite Hv, Hp, Hk.
Qed.

Lemma has_live_fresh_ended w tracks s :
  has_live
    (set_streams
       (alter (map (fun _ => ended)) (length (streams w))
          (streams w ++ [replicate tracks live])) w) s ->
  has_live w s.
Proof.
  intros (tr & Hs & Hin). cbn in Hs.
  destruct (has_live_ended _ _ _ _ Hs Hin) as [Hne Hs'].
  apply lookup_snoc_Some in Hs' as [Hs'|[? _]]; [|contradiction].
  now exists tr.
Qed.

Lemma Safe_probed w k n tracks :
  Inv (view w) -> Safe w -> acquisitions w !! k = Some (AwaitProbe n) ->
  Safe (_startVideo_probed k n tracks w).
Proof.
  intros HI HS Hk.
  pose proof (Owned_pending _ _ _ HI HS Hk eq_refl) as [H1 H2 H3].
  pose proof (owner_pending _ _ _ HI Hk eq_refl) as Ho. cbn in Ho.
  unfold _startVideo_probed, getUserMedia, stopStream. cbn.
  destruct (negb _).
  { eapply Safe_settle_rejected; eauto; reflexivity. }
  destruct (getElementById_video _).
  { eapply Safe_settle_rejected; eauto; reflexivity. }
  right. split.
  - intros s Hs. exfalso.
    assert (has_live w s) as Hl.
    { apply (has_live_fresh_ended w tracks).
      destruct Hs as (tr & Hs & Hin). now exists tr. }
    specialize (H1 _ Hl). congruence.
  - intros k' n' video s Hk'. cbn in Hk'.
    destruct (only_pending _ _ _ _ _ _ HI Hk eq_refl Hk' eq_refl) as [_ ?].
    discriminate.
  - intros k' n' video f Hk'. cbn in Hk'.
    destruct (only_pending _ _ _ _ _ _ HI Hk eq_refl Hk' eq_refl) as [_ E].
    injection E as -> -> ->. cbn. rewrite length_app. cbn. lia.
Qed.

Lemma Safe_streamed w k n video f tracks :
  Inv (view w) -> Safe w ->
  acquisitions w !! k = Some (AwaitStream n video f) ->
  Safe (_startVideo_streamed k n video tracks w).
Proof.
  intros HI HS Hk.
  pose proof (Owned_pending _ _ _ HI HS Hk eq_refl) as [H1 H2 H3].
  pose proof (owner_pending _ _ _ HI Hk eq_refl) as Ho. cbn in Ho.
  pose proof HI as [_ Hf]. destruct (Hf _ _ Hk eq_refl) as (Hp & Hv & _).
  cbn in Hp, Hv.
  assert (k < length (acquisitions w)) as Hlt by (eapply lookup_lt_Some; eauto).
  unfold _startVideo_streamed, getUserMedia, stopStream. cbn.
  destruct (negb _).
  { eapply Safe_settle_rejected; eauto; reflexivity. }
  right. split.
  - intros s (tr & Hs & Hin). cbn in Hs.
    apply lookup_snoc_Some in Hs as [Hs|[-> _]].
    + exfalso. assert (owner w = Some s) by (apply H1; now exists tr).
      congruence.
    + unfold owner. cbn. rewrite Hv, Hp.
      now rewrite list_lookup_insert_eq by exact Hlt.
  - intros k' n' video' s Hk'. cbn in Hk'.
    destruct (only_pending _ _ _ _ _ _ HI Hk eq_refl Hk' eq_refl) as [_ E].
    injection E as -> -> ->. cbn.
    specialize (H3 _ _ _ _ Hk).
    destruct (lookup_lt_is_Some_2 _ _ H3) as [el Hel].
    exists (attach (length (streams w)) el). split; [|reflexivity].
    now rewrite list_lookup_alter_eq, Hel.
  - intros k' n' video' f' Hk'. cbn in Hk'.
    destruct (only_pending _ _ _ _ _ _ HI Hk eq_refl Hk' eq_refl) as [_ ?].
    discriminate.
Qed.

Lemma Safe_played w k n video s :
  Inv (view w) -> Safe w ->
  acquisitions w !! k = Some (AwaitPlay n video s) ->
  Safe (_startVideo_played k n video s w).
Proof.
  intros HI HS Hk.
  pose proof (Owned_pending _ _ _ HI HS Hk eq_refl) as [H1 H2 H3].
  pose proof (owner_pending _ _ _ HI Hk eq_refl) as Ho. cbn in Ho.
  unfold _startVideo_played, stopStream. cbn.
  destruct (negb _).
  { eapply Safe_settle_rejected; eauto; reflexivity. }
  right. destruct (H2 _ _ _ _ Hk) as (el & Hel & Hsrc).
  split.
  - intros s' (tr & Hs & Hin). rewrite settle_acquisition_streams in Hs.
    cbn in Hs.
    assert (owner w = Some s') as Ho' by (apply H1; now exists tr).
    unfold owner. autorewrite with world. cbn.
    rewrite list_lookup_alter_eq, Hel. cbn. congruence.
  - intros k' n' video' s' Hk'. rewrite settle_acquisition_acquisitions in Hk'.
    cbn in Hk'.
    destruct (only_pending _ _ _ _ _ _ HI Hk eq_refl Hk' eq_refl) as [_ ?].
    discriminate.
  - intros k' n' video' f' Hk'. rewrite settle_acquisition_acquisitions in Hk'.
    cbn in Hk'.
    destruct (only_pending _ _ _ _ _ _ HI Hk eq_refl Hk' eq_refl) as [_ ?].
    discriminate.
Qed.

(** Every turn keeps the live stream owned, or leaves the plugin
    poisoned. *)
Lemma Safe_step w ev : Inv (view w) -> Safe w -> Safe (step w ev).
Proof.
  intros HI HS.
  assert (forall w1, deep w1 = deep w -> Safe w1) as Hext
    by (intros w1 E; now apply (Safe_ext w)).
  destruct ev; cbn.
  - unfold prepare, new_call.
    apply Safe__getVideoElement; [exact HI|now apply Hext].
  - unfold startScan, new_call. apply Safe__getVideoElement.
    + rewrite view_startScan_options. exact HI.
    + apply Safe_startScan_options. now apply Hext.
  - apply Hext. unfold pauseScanning, new_call, settle_call, controls_stop.
    by_cases.
  - unfold resumeScanning, new_call.
    apply Safe__getVideoElement; [exact HI|now apply Hext].
  - unfold stopScan, new_call.
    set (w1 := _stop (set_calls (calls w ++ [Pending]) w)).
    assert (Safe w1) as H1
      by (apply Safe__stop; [exact HI|now apply Hext]).
    apply (Safe_ext w1); [|exact H1].
    unfold settle_call, controls_stop. by_cases.
  - apply Hext. unfold disableTorch, new_call, settle_call, switchTorch.
    by_cases.
  - apply Hext. unfold enableTorch, new_call, settle_call, switchTorch.
    by_cases.
  - apply Hext. unfold toggleTorch, new_call, settle_call, switchTorch.
    by_cases.
  - destruct (acquisitions w !! k) as [[n|n video f|n video s| |e]|] eqn:Ek;
      try exact HS.
    + now apply Safe_probed.
    + now apply (Safe_streamed w k n video f).
  - destruct (acquisitions w !! k) as [[n|n video f|n video s| |e]|] eqn:Ek;
      try exact HS.
    all: eapply Safe_settle_rejected; eauto; reflexivity.
  - destruct (acquisitions w !! k) as [[n|n video f|n video s| |e]|] eqn:Ek;
      try exact HS.
    now apply Safe_played.
  - destruct (acquisitions w !! k) as [[n|n video f|n video s| |e]|] eqn:Ek;
      try exact HS.
    eapply Safe_settle_rejected; eauto; reflexivity.
  - apply Hext. unfold decode_started. by_cases.
  - apply Hext. unfold decode_failed. by_cases.
  - unfold invoke_callback.
    destruct (sessions w !! d) as [s|]; [|exact HS].
    destruct (callback result error); [now apply Hext| |].
    all: destruct (settled s); [exact HS|].
    all: unfold finish_session.
    all: set (w1 := finally (set_sessions _ w)).
    all: assert (Safe w1) as H1
           by (apply Safe_finally; [exact HI|now apply Hext]).
    all: apply (Safe_ext w1); [|exact H1].
    all: unfold settle_call; by_cases.
Qed.

Lemma Safe_reachable w : reachable w -> Safe w.
Proof.
  intros (m & s & evs & ->).
  assert (forall w, Inv (view w) -> Safe w -> Safe (run w evs)) as H.
  { induction evs as [|ev evs IH]; intros w HI HS; [exact HS|].
    apply (IH (step w ev)).
    - eapply Inv_effect; [exact HI|apply step_effect].
    - now apply Safe_step. }
  apply H; [apply Inv_initial|].
  right. split.
  - intros s0 (tr & Hs & _). discriminate Hs.
  - intros k n video s0 Hk. discriminate Hk.
  - intros k n video f Hk. discriminate Hk.
Qed.

Lemma reachable_run_from w evs : reachable w -> reachable (run w evs).
Proof.
  intros (m & s & evs0 & ->). exists m, s, (evs0 ++ evs).
  unfold run. now rewrite fold_left_app.
Qed.

(** The streams after a checkpoint that found the generation stale: the
    stream just obtained is stopped, and so is the one that was about to
    be played. *)
Lemma stale_checkpoint_streams w k x n tracks s :
  acquisitions w !! k = Some x -> captured x = Some n ->
  n <> _video_nonce w ->
  has_live (step w (resolution x k tracks)) s ->
  has_live w s /\ match x with AwaitPlay _ _ s0 => s <> s0 | _ => True end.
Proof.
  intros Hk Hc Hn. apply N.eqb_neq in Hn.
  destruct x as [n0|n0 video f|n0 video s0| |e]; cbn in Hc; try discriminate;
    injection Hc as ->; cbn; rewrite Hk.
  - unfold _startVideo_probed, getUserMedia, stopStream; cbn. rewrite Hn; cbn.
    intros (tr & Hs & Hin). rewrite settle_acquisition_streams in Hs.
    split; [|exact I]. apply (has_live_fresh_ended w tracks). now exists tr.
  - unfold _startVideo_streamed, getUserMedia, stopStream; cbn. rewrite Hn; cbn.
    intros (tr & Hs & Hin). rewrite settle_acquisition_streams in Hs.
    split; [|exact I]. apply (has_live_fresh_ended w tracks). now exists tr.
  - unfold _startVideo_played, stopStream; cbn. rewrite Hn; cbn.
    intros (tr & Hs & Hin). rewrite settle_acquisition_streams in Hs.
    cbn in Hs. destruct (has_live_ended _ _ _ _ Hs Hin) as [Hne Hs'].
    split; [now exists tr|exact Hne].
Qed.

Lemma stale_checkpoint_videoPromise w k x n tracks :
  acquisitions w !! k = Some x -> captured x = Some n ->
  n <> _video_nonce w ->
  _videoPromise (step w (resolution x k tracks)) = _videoPromise w.
Proof.
  intros Hk Hc Hn. apply N.eqb_neq in Hn.
  destruct x as [n0|n0 video f|n0 video s0| |e]; cbn in Hc; try discriminate;
    injection Hc as ->; cbn; rewrite Hk.
  - unfold _startVideo_probed, getUserMedia, stopStream; cbn. rewrite Hn; cbn.
    now autorewrite with world.
  - unfold _startVideo_streamed, getUserMedia, stopStream; cbn. rewrite Hn; cbn.
    now autorewrite with world.
  - unfold _startVideo_played, stopStream; cbn. rewrite Hn; cbn.
    now autorewrite with world.
Qed.

(** On the paths that reach a checkpoint the release is complete: when
    the request awaited by an acquisition that [stopScan] overtook
    resolves, the acquisition throws [ScanCanceled], installs nothing,
    and no track is live from then on. *)
Lemma overtaken_acquisition_releases
    (w : World) (k : nat) (x : Acquisition) (evs : list Event) (tracks : nat) :
  reachable w ->
  acquisitions w !! k = Some x -> in_flight x = true ->
  let w' := run (stopScan w) evs in
  acquisitions w' !! k = Some x ->
  let w'' := step w' (resolution x k tracks) in
  (exists message,
     acquisitions w'' !! k = Some (Rejected (ScanCanceled message)))
  /\ _video w'' = None /\ body w'' = []
  /\ forall evs', live_tracks (run w'' evs') = 0.
Proof.
  intros Hr Hk Hx w' Hk' w''.
  assert (reachable w') as Hr'.
  { apply reachable_run_from.
    destruct Hr as (m & s & evs0 & ->). exists m, s, (evs0 ++ [call_stopScan]).
    unfold run. now rewrite fold_left_app. }
  pose proof (Inv_reachable _ Hr') as HI'.
  pose proof (Safe_reachable _ Hr') as HS'.
  pose proof (Owned_pending _ _ _ HI' HS' Hk' Hx) as [H1 _ _].
  pose proof (owner_pending _ _ _ HI' Hk' Hx) as Ho.
  destruct (Inv_reachable _ Hr) as [_ Hf].
  destruct (Hf _ _ Hk Hx) as (_ & _ & n & Hc & Hn). cbn in Hn.
  assert (n <> _video_nonce w') as Hstale.
  { destruct (stale_run evs (stopScan w) k x n) as [[_ Hlt]|[e He]].
    - now rewrite stopScan_acquisitions.
    - exact Hc.
    - rewrite stopScan_nonce. lia.
    - fold w' in Hlt. lia.
    - fold w' in He. rewrite Hk' in He. injection He as ->. discriminate Hx. }
  destruct (stale_checkpoint w' k x n tracks Hk' Hc Hstale)
    as ([message Hm] & Ev & Eb).
  fold w'' in Hm, Ev, Eb.
  destruct HI' as [Hb' Hf']. destruct (Hf' _ _ Hk' Hx) as (Hp' & Hv' & _).
  cbn in Hb', Hp', Hv'.
  assert (forall s, ~ has_live w'' s) as Hnone.
  { intros s Hs.
    destruct (stale_checkpoint_streams w' k x n tracks s Hk' Hc Hstale Hs)
      as [Hl Hne].
    specialize (H1 _ Hl). rewrite Ho in H1.
    destruct x; try discriminate. injection H1 as ->. now apply Hne. }
  split; [now exists message|]. split; [congruence|].
  split; [rewrite Eb, Hb', Hv'; reflexivity|].
  intros evs'. unfold live_tracks.
  assert (Inv (view w'')) as HI''.
  { eapply Inv_effect; [|apply step_effect]. now split. }
  assert (poisoned (view w'') (ScanCanceled message)) as HP''.
  { split; [cbn; congruence|]. exists k. split; [|exact Hm].
    cbn. unfold w''.
    now rewrite (stale_checkpoint_videoPromise w' k x n tracks Hk' Hc Hstale). }
  rewrite (poisoned_streams_run evs' _ _ HI'' HP'').
  now apply live_tracks_0.
Qed.

(** ** Three runs *)

Lemma reachable_run m s evs : reachable (run (initial m s) evs).
Proof. now exists m, s, evs. Qed.

(** C1 fails on the code.  The canceled [startScan] is rejected with
    [ScanCanceled] and its probe stream is stopped, as claimed; but the
    rejected promise stays in [_videoPromise], so whatever happens next,
    every later [startScan] is rejected at once with the same
    [ScanCanceled] and never asks for the camera. *)
Theorem restart_after_cancel_is_rejected :
  calls canceled_start = [Failed canceled; Resolved VVoid]
  /\ live_tracks canceled_start = 0
  /\ _video_nonce canceled_start = 1%N
  /\ _videoPromise canceled_start = Some 0
  /\ acquisitions canceled_start = [Rejected canceled]
  /\ forall evs o,
       let w := run canceled_start evs in
       calls (startScan o w) = calls w ++ [Failed canceled]
       /\ acquisitions (startScan o w) = acquisitions w
       /\ live_tracks (startScan o w) = 0.
Proof.
  do 5 (split; [reflexivity|]). intros evs o w.
  assert (Inv (view canceled_start)) as HI
    by apply Inv_reachable, reachable_run.
  assert (poisoned (view canceled_start) canceled) as HP
    by (split; [reflexivity|exists 0; split; reflexivity]).
  assert (Inv (view w)) as HI' by now apply Inv_run.
  assert (poisoned (view w) canceled) as HP' by now apply poisoned_run.
  destruct (poisoned_call w canceled by_startScan o HP') as [Hc Ha].
  split; [exact Hc|]. split; [exact Ha|].
  unfold live_tracks. change (startScan o w) with (step w (call_startScan o)).
  rewrite (poisoned_streams w canceled _ HI' HP'). unfold w.
  now rewrite (poisoned_streams_run evs _ canceled HI HP).
Qed.

(** C2 fails on the code.  The acquisition never reaches a checkpoint:
    it is rejected with the error of [play()], the stream it had
    attached to the video element is not stopped, and nothing stops it
    in any later turn. *)
Theorem stop_then_play_rejection_leaks_stream :
  acquisitions stop_during_play = [Rejected (DOMException "NotAllowedError")]
  /\ _video_nonce stop_during_play = 1%N
  /\ _video stop_during_play = None
  /\ body stop_during_play = []
  /\ streams stop_during_play = [[ended]; [live]]
  /\ forall evs, live_tracks (run stop_during_play evs) = 1.
Proof.
  repeat split. intros evs. unfold live_tracks.
  rewrite (poisoned_streams_run evs _ (DOMException "NotAllowedError")).
  - reflexivity.
  - apply Inv_reachable, reachable_run.
  - split; [reflexivity|exists 0; split; reflexivity].
Qed.

(** C4 fails on the code.  When [video.play()] rejects, [startScan] is
    rejected while the stream attached to the video element keeps its
    live track: [_startVideo] stops [newStream] only on the cancellation
    paths, and [_video] was never set, so no later [_stop] finds it. *)
Theorem failed_play_leaves_stream_live :
  calls play_fails = [Failed (DOMException "NotAllowedError")]
  /\ srcObject <$> videos play_fails !! 0 = Some (Some 1)
  /\ streams play_fails !! 1 = Some [live]
  /\ body play_fails = []
  /\ _video play_fails = None
  /\ forall evs, live_tracks (run play_fails evs) = 1.
Proof.
  repeat split. intros evs. unfold live_tracks.
  rewrite (poisoned_streams_run evs _ (DOMException "NotAllowedError")).
  - reflexivity.
  - apply Inv_reachable, reachable_run.
  - split; [reflexivity|exists 0; split; reflexivity].
Qed.

(** The exits of a scan that do release: once the controls are stored,
    the first settling callback stops every track and empties the
    document, for a result as for an engine error. *)
Lemma settled_scan_releases :
  let w := step decoding
             (frame 0 (Some {| getText := "hello"; getBarcodeFormat := 11 |})
                None) in
  let w' := step decoding (frame 0 None (Some (OtherException "Error"))) in
  (live_tracks w = 0 /\ body w = [] /\ _video w = None)
  /\ (live_tracks w' = 0 /\ body w' = [] /\ _video w' = None
      /\ calls w' = [Failed (EngineError (OtherException "Error"))]).
Proof. repeat split. Qed.

(** An engine that invokes the callback before [decodeFromVideoElement]
    has resolved finds [_controls] null in the [finally] block: the
    scan ends with the camera on and the element in the document. *)
Lemma early_callback_skips_release :
  let w := run (initial true false)
             [call_startScan BACK_options; media_resolved 0 1;
              media_resolved 0 1; play_resolved 0;
              frame 0 None (Some (OtherException "Error"));
              decode_resolved 0 None] in
  calls w = [Failed (EngineError (OtherException "Error"))]
  /\ live_tracks w = 1 /\ body w = [0] /\ _controls w = Some 0.
Proof. repeat split. Qed.

(** * Further properties *)

(** ** Background and permissions *)

(** X1: [showBackground] after [hideBackground] puts back the colour the
    document had, whatever it was, with the colour set to transparent in
    between. *)
Theorem showBackground_restores (b : Background) :
  backgroundColor (hideBackground b) = "transparent"
  /\ backgroundColor (showBackground (hideBackground b)) = backgroundColor b.
Proof.
  split; [reflexivity|]. cbn.
  destruct (String.eqb_spec (backgroundColor b) ""); congruence.
Qed.

(** X2: the saved colour is overwritten by every [hideBackground]: after
    two of them [showBackground] leaves the document transparent;
    [showBackground] twice is [showBackground] once; and with nothing
    saved [showBackground] clears the colour. *)
Theorem hideBackground_twice_forgets (b : Background) (c : string) :
  backgroundColor (showBackground (hideBackground (hideBackground b)))
  = "transparent"
  /\ showBackground (showBackground b) = showBackground b
  /\ backgroundColor
       (showBackground {| _backgroundColor := None; backgroundColor := c |})
     = "".
Proof. repeat split. Qed.

(** X3: [checkPermission] fails, with [Unavailable], exactly when the
    permissions API is missing or the query throws; otherwise its
    result has one flag, set to true: [granted], [denied] and
    [neverAsked] for the states "granted", "denied" and "prompt", and
    [unknown] for every other state. *)
Theorem checkPermission_one_flag (p : option (option string)) :
  match checkPermission p with
  | inl e =>
      (p = None \/ p = Some None) /\ exists message, e = Unavailable message
  | inr r =>
      exists state, p = Some (Some state)
        /\ flags r = [Some true]
        /\ (granted r = Some true <-> state = "granted")
        /\ (denied r = Some true <-> state = "denied")
        /\ (neverAsked r = Some true <-> state = "prompt")
        /\ (unknown r = Some true <->
            state <> "granted" /\ state <> "denied" /\ state <> "prompt")
  end.
Proof.
  destruct p as [[state|]|]; cbn; [|split; eauto..].
  destruct (String.eqb_spec state "prompt") as [->|Hp]; cbn.
  { exists "prompt". repeat split; try discriminate; try congruence.
    intros (_ & _ & H). congruence. }
  destruct (String.eqb_spec state "denied") as [->|Hd]; cbn.
  { exists "denied". repeat split; try discriminate; try congruence.
    intros (_ & H & _). congruence. }
  destruct (String.eqb_spec state "granted") as [->|Hg]; cbn.
  { exists "granted". repeat split; try discriminate; try congruence.
    intros (H & _). congruence. }
  exists state. repeat split; try discriminate; try congruence.
Qed.

(** ** The generation counter and the two fields of the video *)

Lemma step_video_nonce w ev :
  bumps ev = false -> _video_nonce (step w ev) = _video_nonce w.
Proof.
  intros Hb.
  assert (forall caller call w1, _video_nonce w1 = _video_nonce w ->
            _video_nonce (_getVideoElement caller call w1) = _video_nonce w)
    as Hg.
  { intros caller call w1 <-. unfold _getVideoElement,
      resume_getVideoElement, continue_with_video,
      _getFirstResultFromReader, _startVideo, settle_call. by_cases. }
  destruct ev; try discriminate Hb; cbn.
  - now apply Hg.
  - apply Hg. unfold new_call.
    pose proof (beyond_options_startScan_options o
                  (set_calls (calls w ++ [Pending]) w)) as H.
    unfold beyond_options in H. injection H. intros. assumption.
  - unfold pauseScanning, new_call, settle_call, controls_stop. by_cases.
  - now apply Hg.
  - unfold disableTorch, new_call, settle_call, switchTorch. by_cases.
  - unfold enableTorch, new_call, settle_call, switchTorch. by_cases.
  - unfold toggleTorch, new_call, settle_call, switchTorch. by_cases.
  - unfold _startVideo_probed, _startVideo_streamed, getUserMedia, stopStream.
    by_cases; now autorewrite with world.
  - by_cases; now autorewrite with world.
  - unfold _startVideo_played, stopStream.
    by_cases; now autorewrite with world.
  - by_cases; now autorewrite with world.
  - unfold decode_started. by_cases.
  - unfold decode_failed. by_cases.
Qed.

(** X4: the generation counter never decreases; one turn adds at most
    one to it, and only a [stopScan] or a callback of the decode engine
    can add it. *)
Theorem video_nonce_monotone (w : World) (ev : Event) (evs : list Event) :
  (_video_nonce w <= _video_nonce (run w evs))%N
  /\ (_video_nonce (step w ev) = _video_nonce w
      \/ _video_nonce (step w ev) = N.succ (_video_nonce w)
         /\ bumps ev = true).
Proof.
  split.
  - revert w. induction evs as [|ev' evs IH]; intros w; cbn; [lia|].
    pose proof (Effect_nonce _ _ (step_effect w ev')) as H. cbn in H.
    specialize (IH (step w ev')). unfold run in IH. lia.
  - destruct (bumps ev) eqn:Hb.
    + destruct (step_effect w ev)
        as [E|_ E _ _|x _ _ _ E|k x y _ _ _ E|k x e _ _ E|k v s _ E];
        cbn in E.
      2: now right.
      all: left; apply (f_equal v_nonce) in E; exact E.
    + left. now apply step_video_nonce.
Qed.

Lemma Exclusive_effect a b : Inv a -> Exclusive a -> Effect a b -> Exclusive b.
Proof.
  intros [_ Hf] HE E Hv.
  destruct E as [->|_ _ Ev _|x _ _ _ ->|k x y Hk Cx _ ->
                 |k x e Hk Hx ->|k video newStream Hk ->]; cbn in *.
  - now apply HE.
  - congruence.
  - congruence.
  - now apply HE.
  - now apply HE.
  - reflexivity.
Qed.

Lemma Exclusive_reachable w : reachable w -> Exclusive (view w).
Proof.
  intros (m & s & evs & ->).
  assert (forall w, Inv (view w) -> Exclusive (view w) ->
            Exclusive (view (run w evs))) as H.
  { induction evs as [|ev evs IH]; intros w HI HE; [exact HE|].
    apply (IH (step w ev)).
    - eapply Inv_effect; [exact HI|apply step_effect].
    - eapply Exclusive_effect; [exact HI|exact HE|apply step_effect]. }
  apply H; [apply Inv_initial|]. intros Hv. now cbn in Hv.
Qed.

(** X5: in every reachable state, while a video element is installed
    [_videoPromise] is null, no acquisition is pending, and the element
    is the only one in the document. *)
Theorem installed_video_is_alone (w : World) (video : nat) :
  reachable w -> _video w = Some video ->
  _videoPromise w = None
  /\ body w = [video]
  /\ forall k x, acquisitions w !! k = Some x -> in_flight x = false.
Proof.
  intros Hr Hv. destruct (Inv_reachable w Hr) as [Hb Hf]. cbn in Hb, Hf.
  split; [|split].
  - apply (Exclusive_reachable w Hr). cbn. congruence.
  - now rewrite Hb, Hv.
  - intros k x Hk. destruct (in_flight x) eqn:Hx; [|reflexivity].
    destruct (Hf _ _ Hk Hx) as (_ & ? & _). congruence.
Qed.

Lemma installed_video_is_alone_witness :
  _videoPromise decoding = None
  /\ body decoding = [0]
  /\ forall k x, acquisitions decoding !! k = Some x -> in_flight x = false.
Proof.
  apply (installed_video_is_alone decoding 0).
  - apply reachable_run.
  - reflexivity.
Defined.

(** ** A rejection is permanent *)

Lemma Kept_effect a b : Inv a -> Kept a -> Effect a b -> Kept b.
Proof.
  intros HI HK E k e Hk. pose proof HI as [_ Hf].
  destruct E as [->|Ea _ Ev Hm|x Ev Ep Hx ->|k0 x y Hk0 Cx Cy ->
                 |k0 x e0 Hk0 Hx0 ->|k0 video newStream Hk0 ->]; cbn in Hk.
  - exact (HK _ _ Hk).
  - rewrite Ea in Hk. destruct (HK _ _ Hk) as (Hv & k1 & Hp & Hk1).
    rewrite Hv in Hm. destruct Hm as [Em _].
    split; [exact Ev|]. exists k1. now rewrite Em, Ea.
  - apply lookup_snoc_Some in Hk as [Hk|[-> <-]].
    + destruct (HK _ _ Hk) as (_ & k1 & Hp & _). congruence.
    + split; [reflexivity|]. exists (length (v_acquisitions a)).
      split; [reflexivity|]. cbn.
      now rewrite lookup_app_r, Nat.sub_diag by auto.
  - apply captured_in_flight in Cx.
    destruct (decide (k = k0)) as [->|Hne].
    + rewrite list_lookup_insert_eq in Hk by (eapply lookup_lt_Some; eauto).
      injection Hk as ->. discriminate Cy.
    + rewrite list_lookup_insert_ne in Hk by auto.
      pose proof (poisoned_settled a e k0 x HI (HK _ _ Hk) Hk0). congruence.
  - destruct (decide (k = k0)) as [->|Hne].
    + rewrite list_lookup_insert_eq in Hk by (eapply lookup_lt_Some; eauto).
      injection Hk as ->. destruct (Hf _ _ Hk0 Hx0) as (Hp & Hv & _).
      split; [exact Hv|]. exists k0. split; [exact Hp|]. cbn.
      apply list_lookup_insert_eq. eapply lookup_lt_Some; eauto.
    + rewrite list_lookup_insert_ne in Hk by auto.
      pose proof (poisoned_settled a e k0 x HI (HK _ _ Hk) Hk0). congruence.
  - destruct (decide (k = k0)) as [->|Hne].
    + rewrite list_lookup_insert_eq in Hk by (eapply lookup_lt_Some; eauto).
      discriminate Hk.
    + rewrite list_lookup_insert_ne in Hk by auto.
      pose proof (poisoned_settled a e k0 _ HI (HK _ _ Hk) Hk0). discriminate.
Qed.

Lemma Kept_reachable w : reachable w -> Kept (view w).
Proof.
  intros (m & s & evs & ->).
  assert (forall w, Inv (view w) -> Kept (view w) -> Kept (view (run w evs)))
    as H.
  { induction evs as [|ev evs IH]; intros w HI HK; [exact HK|].
    apply (IH (step w ev)).
    - eapply Inv_effect; [exact HI|apply step_effect].
    - eapply Kept_effect; [exact HI|exact HK|apply step_effect]. }
  apply H; [apply Inv_initial|]. intros k e Hk. discriminate Hk.
Qed.

(** X6: whatever rejected an acquisition -- a cancellation, a refused
    or failed media request, a failed [play()], missing media devices --
    the rejection is permanent: through all later turns every
    [prepare], [startScan] and [resumeScanning] is rejected in the turn
    of the call with that same error, no acquisition is started, and no
    stream is created or stopped. *)
Theorem rejection_is_permanent
    (w : World) (k : nat) (e : Err) (evs : list Event)
    (caller : Caller) (o : option ScanOptions) :
  reachable w -> acquisitions w !! k = Some (Rejected e) ->
  let w' := run w evs in
  calls (step w' (call_of caller o)) = calls w' ++ [Failed e]
  /\ acquisitions (step w' (call_of caller o)) = acquisitions w'
  /\ streams (step w' (call_of caller o)) = streams w
  /\ _video w' = None.
Proof.
  intros Hr Hk w'.
  pose proof (Inv_reachable w Hr) as HI.
  pose proof (Kept_reachable w Hr k e Hk) as HP.
  assert (Inv (view w')) as HI' by now apply Inv_run.
  assert (poisoned (view w') e) as HP' by now apply poisoned_run.
  destruct (poisoned_call w' e caller o HP') as [Hc Ha].
  split; [exact Hc|]. split; [exact Ha|]. split.
  - rewrite (poisoned_streams w' e _ HI' HP'). unfold w'.
    now apply (poisoned_streams_run evs w e).
  - now destruct HP'.
Qed.

Lemma rejection_is_permanent_witness :
  let w := run (initial true false)
             [call_prepare; media_rejected 0 "NotAllowedError"] in
  let w' := run w [call_stopScan] in
  calls (step w' (call_of by_startScan None))
  = calls w' ++ [Failed (DOMException "NotAllowedError")]
  /\ acquisitions (step w' (call_of by_startScan None)) = acquisitions w'
  /\ streams (step w' (call_of by_startScan None)) = streams w
  /\ _video w' = None.
Proof.
  intros w.
  apply (rejection_is_permanent w 0 (DOMException "NotAllowedError")
           [call_stopScan] by_startScan None).
  - apply reachable_run.
  - reflexivity.
Defined.

(** ** A platform without media devices *)

Lemma mediaDevices_startScan_options o w :
  mediaDevices (startScan_options o w) = mediaDevices w.
Proof.
  assert (forall fs w1, mediaDevices (fold_left targeted fs w1)
                        = mediaDevices w1) as Hf.
  { induction fs as [|f fs IH]; intros w1; cbn; [reflexivity|].
    rewrite IH. unfold targeted. now destruct (0 <=? _)%Z. }
  unfold startScan_options.
  destruct o as [[[fs|] [d|]]|]; cbn; rewrite ?Hf; reflexivity.
Qed.

Lemma step_mediaDevices w ev : mediaDevices (step w ev) = mediaDevices w.
Proof.
  assert (forall caller call w1, mediaDevices w1 = mediaDevices w ->
            mediaDevices (_getVideoElement caller call w1) = mediaDevices w)
    as Hg.
  { intros caller call w1 <-. unfold _getVideoElement,
      resume_getVideoElement, continue_with_video,
      _getFirstResultFromReader, _startVideo, settle_call. by_cases. }
  assert (forall k r w1, mediaDevices (settle_acquisition k r w1)
                         = mediaDevices w1) as Hs.
  { intros k r w1. pose proof (core_settle_acquisition k r w1) as H.
    unfold core in H. injection H. intros. assumption. }
  destruct ev; cbn.
  - now apply Hg.
  - apply Hg. unfold new_call. now rewrite mediaDevices_startScan_options.
  - unfold pauseScanning, new_call, settle_call, controls_stop. by_cases.
  - now apply Hg.
  - unfold stopScan, new_call, settle_call, controls_stop, _stop, stopVideo,
      stopStream. by_cases.
  - unfold disableTorch, new_call, settle_call, switchTorch. by_cases.
  - unfold enableTorch, new_call, settle_call, switchTorch. by_cases.
  - unfold toggleTorch, new_call, settle_call, switchTorch. by_cases.
  - unfold _startVideo_probed, _startVideo_streamed, getUserMedia, stopStream.
    by_cases; now rewrite ?Hs.
  - by_cases; now rewrite ?Hs.
  - unfold _startVideo_played, stopStream. by_cases; now rewrite ?Hs.
  - by_cases; now rewrite ?Hs.
  - unfold decode_started. by_cases.
  - unfold decode_failed. by_cases.
  - unfold invoke_callback, finish_session, finally, settle_call,
      controls_stop, _stop, stopVideo, stopStream. by_cases.
Qed.

Lemma _getVideoElement_deprived caller call w :
  mediaDevices w = false -> _video w = None -> _videoPromise w = None ->
  acquisitions w = [] ->
  _getVideoElement caller call w
  = settle_call call (Failed no_mediaDevices)
      (set_videoPromise (Some 0)
         (set_acquisitions [Rejected no_mediaDevices] w)).
Proof.
  intros Em Ev Ep Ea. unfold _getVideoElement, _startVideo.
  rewrite Ev, Ep, Em, Ea. reflexivity.
Qed.

Lemma Deprived_call caller o w :
  Deprived w ->
  calls (step w (call_of caller o)) = calls w ++ [Failed no_mediaDevices]
  /\ poisoned (view (step w (call_of caller o))) no_mediaDevices
  /\ streams (step w (call_of caller o)) = streams w.
Proof.
  intros (Em & Ev & Es & [[Ea Ep]|HP]).
  2:{ destruct (poisoned_call w _ caller o HP) as [Hc Ha].
      split; [exact Hc|].
      assert (forall w1, view w1 = view w -> streams w1 = streams w ->
                poisoned (view (_getVideoElement caller (length (calls w)) w1))
                  no_mediaDevices
                /\ streams (_getVideoElement caller (length (calls w)) w1)
                   = streams w) as H.
      { intros w1 Ew Es1.
        rewrite (_getVideoElement_poisoned _ _ _ no_mediaDevices)
          by (now rewrite Ew).
        split; [|exact Es1].
        change (poisoned (view w1) no_mediaDevices). now rewrite Ew. }
      destruct caller; cbn.
      - apply H; reflexivity.
      - unfold startScan, new_call. apply H.
        + now rewrite view_startScan_options.
        + pose proof (beyond_options_startScan_options o
                        (set_calls (calls w ++ [Pending]) w)) as Hb.
          unfold beyond_options in Hb. injection Hb. intros. assumption.
      - apply H; reflexivity. }
  assert (forall w1, beyond_options w1
                     = beyond_options (set_calls (calls w ++ [Pending]) w) ->
            mediaDevices w1 = false ->
            calls (_getVideoElement caller (length (calls w)) w1)
            = calls w ++ [Failed no_mediaDevices]
            /\ poisoned (view (_getVideoElement caller (length (calls w)) w1))
                 no_mediaDevices
            /\ streams (_getVideoElement caller (length (calls w)) w1)
               = streams w) as H.
  { intros w1 Hb Em1. unfold beyond_options in Hb. injection Hb.
    cbn. intros Ec1 _ Ew1 Ea1 _ _ _ Es1 _ Ep1 Ev1 _ _.
    rewrite _getVideoElement_deprived by congruence.
    split; [|split].
    - apply calls_settle_call_fresh. exact Ec1.
    - split; [cbn; congruence|]. exists 0. split; reflexivity.
    - exact Es1. }
  destruct caller; cbn.
  - apply H; [reflexivity|exact Em].
  - unfold startScan, new_call. apply H.
    + apply beyond_options_startScan_options.
    + now rewrite mediaDevices_startScan_options.
  - apply H; [reflexivity|exact Em].
Qed.

Lemma Deprived_step w ev : Inv (view w) -> Deprived w -> Deprived (step w ev).
Proof.
  intros HI HD. pose proof HD as (Em & Ev & Es & Hc).
  assert (forall caller o, Deprived (step w (call_of caller o))) as Hcall.
  { intros caller o. destruct (Deprived_call caller o w HD) as (_ & HP & Hs).
    split; [now rewrite step_mediaDevices|].
    split; [now destruct HP|]. split; [congruence|now right]. }
  destruct Hc as [[Ea Ep]|HP].
  2:{ pose proof (poisoned_effect _ _ _ HI (step_effect w ev) HP) as HP'.
      split; [now rewrite step_mediaDevices|].
      split; [now destruct HP'|].
      split; [rewrite (poisoned_streams w _ ev HI HP); exact Es|now right]. }
  destruct ev; try exact (Hcall by_prepare None);
    try exact (Hcall by_startScan o);
    try exact (Hcall by_resumeScanning None).
  all: split; [now rewrite step_mediaDevices|].
  all: cbn; rewrite ?Ea; cbn.
  - unfold pauseScanning, new_call, settle_call, controls_stop.
    by_cases; repeat split; auto.
  - unfold stopScan, new_call, settle_call, controls_stop, _stop. cbn.
    rewrite Ev. by_cases; repeat split; auto.
  - unfold disableTorch, new_call, settle_call, switchTorch.
    by_cases; repeat split; auto.
  - unfold enableTorch, new_call, settle_call, switchTorch.
    by_cases; repeat split; auto.
  - unfold toggleTorch, new_call, settle_call, switchTorch.
    by_cases; repeat split; auto.
  - rewrite lookup_nil. repeat split; auto.
  - rewrite lookup_nil. repeat split; auto.
  - rewrite lookup_nil. repeat split; auto.
  - rewrite lookup_nil. repeat split; auto.
  - unfold decode_started. by_cases; repeat split; auto.
  - unfold decode_failed. by_cases; repeat split; auto.
  - unfold invoke_callback, finish_session, finally, settle_call,
      controls_stop, _stop. cbn. rewrite Ev.
    by_cases; repeat split; auto.
Qed.

(** X7: on a platform without [navigator.mediaDevices], in every state
    the plugin can reach: no stream exists, no video element is
    installed or in the document, and every [prepare], [startScan] and
    [resumeScanning] is rejected in the turn of the call with
    "No mediaDevices supported". *)
Theorem without_mediaDevices
    (safari : bool) (evs : list Event) (caller : Caller)
    (o : option ScanOptions) :
  let w := run (initial false safari) evs in
  streams w = [] /\ _video w = None /\ body w = []
  /\ calls (step w (call_of caller o)) = calls w ++ [Failed no_mediaDevices].
Proof.
  intros w.
  assert (forall w0, Inv (view w0) -> Deprived w0 ->
            Inv (view (run w0 evs)) /\ Deprived (run w0 evs)) as H.
  { induction evs as [|ev evs IH]; intros w0 HI HD; [now split|].
    apply (IH (step w0 ev)).
    - eapply Inv_effect; [exact HI|apply step_effect].
    - now apply Deprived_step. }
  destruct (H (initial false safari)) as [[Hb _] HD].
  - apply Inv_initial.
  - repeat split. now left.
  - fold w in Hb, HD. pose proof HD as (_ & Ev & Es & _). cbn in Hb.
    split; [exact Es|]. split; [exact Ev|].
    split; [now rewrite Hb, Ev|].
    apply (Deprived_call caller o w HD).
Qed.

(** ** Teardown *)

Lemma idle_no_live w :
  reachable w -> _video w = None -> _videoPromise w = None ->
  live_tracks w = 0.
Proof.
  intros Hr Ev Ep. apply live_tracks_0. intros s Hs.
  destruct (Safe_reachable w Hr) as [[e HP]|[H1 _ _]].
  - now apply (not_poisoned_idle w e).
  - specialize (H1 s Hs). unfold owner in H1. rewrite Ev, Ep in H1.
    discriminate.
Qed.

Lemma reachable_step w ev : reachable w -> reachable (step w ev).
Proof. intros Hr. apply (reachable_run_from w [ev] Hr). Qed.

Lemma _stop_installed w video :
  _video w = Some video ->
  _video (_stop w) = None /\ _videoPromise (_stop w) = None
  /\ _video_nonce (_stop w) = N.succ (_video_nonce w).
Proof.
  intros Ev. unfold _stop, stopVideo, stopStream. rewrite Ev. by_cases.
  all: repeat split.
Qed.

(** X8: [stopScan] on an installed video element tears everything down:
    afterwards [_video], [_videoPromise] and [_controls] are null, the
    document holds no video element, no track of any stream is live,
    the counter has moved by one and the call is resolved. *)
Theorem stopScan_tears_down (w : World) (video : nat) :
  reachable w -> _video w = Some video ->
  let w' := stopScan w in
  _video w' = None /\ _videoPromise w' = None /\ _controls w' = None
  /\ body w' = [] /\ live_tracks w' = 0
  /\ _video_nonce w' = N.succ (_video_nonce w)
  /\ calls w' = calls w ++ [Resolved VVoid].
Proof.
  intros Hr Ev w'.
  assert (reachable w') as Hr' by apply (reachable_step w call_stopScan Hr).
  destruct (_stop_installed (set_calls (calls w ++ [Pending]) w) video Ev)
    as (Hv & Hp & Hn).
  assert (_video w' = None) as Hv'.
  { unfold w', stopScan, new_call, settle_call, controls_stop.
    by_cases. }
  assert (_videoPromise w' = None) as Hp'.
  { unfold w', stopScan, new_call, settle_call, controls_stop.
    by_cases. }
  split; [exact Hv'|]. split; [exact Hp'|]. split.
  { unfold w', stopScan, new_call, settle_call; cbn.
    case_match; [reflexivity|assumption]. }
  split.
  { assert (body w' = match _video w' with
                      | Some v => [v]
                      | None => []
                      end) as Hb
      by apply (inv_body _ (Inv_reachable w' Hr')).
    now rewrite Hb, Hv'. }
  split; [now apply idle_no_live|]. split; [apply stopScan_nonce|].
  unfold w', stopScan, new_call.
  match goal with
  | |- calls (settle_call _ _ ?x) = _ =>
      apply (calls_settle_call_fresh x (calls w))
  end.
  unfold _stop, stopVideo, stopStream, controls_stop. by_cases.
Qed.

Lemma stopScan_tears_down_witness :
  let w' := stopScan decoding in
  _video w' = None /\ _videoPromise w' = None /\ _controls w' = None
  /\ body w' = [] /\ live_tracks w' = 0
  /\ _video_nonce w' = N.succ (_video_nonce decoding)
  /\ calls w' = calls decoding ++ [Resolved VVoid].
Proof.
  apply (stopScan_tears_down decoding 0).
  - apply reachable_run.
  - reflexivity.
Defined.

Lemma finish_session_releases d s o w c :
  _controls w = Some c ->
  let w' := finish_session d s o w in
  _controls w' = None
  /\ _video w' = None
  /\ (_video w <> None -> _videoPromise w' = None)
  /\ _videoPromise w'
     = match _video w with Some _ => None | None => _videoPromise w end
  /\ _video_nonce w' = N.succ (_video_nonce w)
  /\ acquisitions w' = acquisitions w.
Proof.
  intros Ec. unfold finish_session, finally, _stop, stopVideo, stopStream,
    controls_stop, settle_call. cbn. rewrite Ec. cbn.
  destruct (_video w) eqn:Ev; by_cases; repeat split; congruence.
Qed.

(** X9: with the controls of the engine stored and a video element
    installed, the callback that settles a decode session -- a result
    with or without text, or an error that is not recoverable --
    releases everything: [_controls], [_video] and [_videoPromise] are
    null afterwards, the document holds no video element, no track is
    live, and the counter has moved by one. *)
Theorem settling_callback_releases
    (w : World) (video c d : nat) (s : DecodeSession)
    (result : option Result) (error : option Exception) :
  reachable w ->
  _video w = Some video -> _controls w = Some c ->
  sessions w !! d = Some s -> settled s = false ->
  (forall name, callback result error <> ignored name) ->
  let w' := step w (frame d result error) in
  _controls w' = None /\ _video w' = None /\ _videoPromise w' = None
  /\ body w' = [] /\ live_tracks w' = 0
  /\ _video_nonce w' = N.succ (_video_nonce w).
Proof.
  intros Hr Ev Ec Hd Hs Hcb w'.
  assert (reachable w') as Hr' by apply (reachable_step w _ Hr).
  assert (exists o, w' = finish_session d s o w) as [o Ew].
  { unfold w'. cbn. unfold invoke_callback. rewrite Hd.
    destruct (callback result error) as [name|e|r] eqn:E.
    - now destruct (Hcb name).
    - rewrite Hs. now exists (inl e).
    - rewrite Hs. now exists (inr r). }
  destruct (finish_session_releases d s o w c Ec) as (H1 & H2 & H3 & _ & H5 & _).
  rewrite <- Ew in H1, H2, H3, H5.
  assert (_videoPromise w' = None) as Hp by (apply H3; congruence).
  split; [exact H1|]. split; [exact H2|]. split; [exact Hp|]. split.
  { assert (body w' = match _video w' with
                      | Some v => [v]
                      | None => []
                      end) as Hb
      by apply (inv_body _ (Inv_reachable w' Hr')).
    now rewrite Hb, H2. }
  split; [now apply idle_no_live|exact H5].
Qed.

Lemma settling_callback_releases_witness :
  let w' := step decoding (frame 0 None None) in
  _controls w' = None /\ _video w' = None /\ _videoPromise w' = None
  /\ body w' = [] /\ live_tracks w' = 0
  /\ _video_nonce w' = N.succ (_video_nonce decoding).
Proof.
  apply (settling_callback_releases decoding 0 0 0
           {| session_call := 0; session_caller := by_startScan;
              session_video := 0; hints := None;
              starting := false; settled := false |} None None).
  - apply reachable_run.
  - reflexivity.
  - reflexivity.
  - reflexivity.
  - reflexivity.
  - intros name H. discriminate H.
Defined.



(** X11: when [stopScan] runs before [decodeFromVideoElement] has
    resolved there are no controls to stop; the controls the engine
    hands over afterwards are stored in [_controls], not stopped,
    although no video element is installed any more. *)
Theorem late_controls_survive_stopScan
    (w : World) (d : nat) (s : DecodeSession) (t : option bool) :
  sessions w !! d = Some s -> starting s = true ->
  let w' := step (stopScan w) (decode_resolved d t) in
  _controls w' = Some (length (scanners w))
  /\ scanners w' !! length (scanners w) = Some {| stopped := false; torch := t |}
  /\ _video w' = None.
Proof.
  intros Hd Hs w'.
  assert (sessions (stopScan w) = sessions w) as Es.
  { unfold stopScan, new_call, settle_call, controls_stop, _stop, stopVideo,
      stopStream. by_cases. }
  assert (length (scanners (stopScan w)) = length (scanners w)) as El.
  { unfold stopScan, new_call, settle_call, controls_stop, _stop, stopVideo,
      stopStream. by_cases; now rewrite ?length_alter. }
  assert (_video (stopScan w) = None) as Ev.
  { unfold stopScan, new_call, settle_call, controls_stop, _stop, stopVideo,
      stopStream. by_cases. }
  unfold w'. clear w'. revert Es El Ev. generalize (stopScan w).
  intros w1 Es El Ev. cbn. unfold decode_started. rewrite Es, Hd, Hs. cbn.
  rewrite El. split; [reflexivity|]. split; [|exact Ev].
  rewrite <- El. now rewrite lookup_app_r, Nat.sub_diag by auto.
Qed.

Lemma late_controls_survive_stopScan_witness :
  let w := run (initial true false)
             [call_startScan None; media_resolved 0 1; media_resolved 0 1;
              play_resolved 0] in
  let w' := step (stopScan w) (decode_resolved 0 None) in
  _controls w' = Some 0
  /\ scanners w' !! 0 = Some {| stopped := false; torch := None |}
  /\ _video w' = None.
Proof.
  intros w.
  apply (late_controls_survive_stopScan w 0
           {| session_call := 0; session_caller := by_startScan;
              session_video := 0; hints := None;
              starting := true; settled := false |} None); reflexivity.
Defined.

(** ** Pausing and resuming *)

(** X12: with a video element installed, [pauseScanning] followed by
    [resumeScanning] leaves the camera as it is -- same streams, same
    element in the document, same counter, no acquisition started --
    clears [_controls], and starts one new decode session on the
    installed element with the formats stored by the last [startScan]. *)
Theorem pause_then_resume (w : World) (video : nat) :
  _video w = Some video ->
  let w1 := pauseScanning w in
  let w2 := resumeScanning w1 in
  _controls w1 = None
  /\ streams w2 = streams w /\ videos w2 = videos w /\ body w2 = body w
  /\ _video w2 = Some video /\ acquisitions w2 = acquisitions w
  /\ _video_nonce w2 = _video_nonce w
  /\ sessions w2
     = sessions w
       ++ [new_session video (S (length (calls w))) by_resumeScanning w]
  /\ calls w2 = calls w ++ [Resolved VVoid; Pending].
Proof.
  intros Ev w1 w2. unfold w2, w1, resumeScanning, pauseScanning, new_call,
    _getVideoElement, continue_with_video, _getFirstResultFromReader,
    new_session, settle_call, controls_stop.
  cbn. destruct (_controls w) as [c|] eqn:Ec; cbn; rewrite Ev; cbn.
  all: rewrite length_insert, length_app; cbn.
  all: rewrite insert_app_r_alt, Nat.sub_diag by lia; cbn.
  all: rewrite Nat.add_1_r, <- app_assoc; cbn.
  all: repeat split; assumption.
Qed.

Lemma pause_then_resume_witness :
  let w1 := pauseScanning decoding in
  let w2 := resumeScanning w1 in
  _controls w1 = None
  /\ streams w2 = streams decoding /\ videos w2 = videos decoding
  /\ body w2 = body decoding
  /\ _video w2 = Some 0 /\ acquisitions w2 = acquisitions decoding
  /\ _video_nonce w2 = _video_nonce decoding
  /\ sessions w2
     = sessions decoding
       ++ [new_session 0 (S (length (calls decoding))) by_resumeScanning
             decoding]
  /\ calls w2 = calls decoding ++ [Resolved VVoid; Pending].
Proof. apply (pause_then_resume decoding 0). reflexivity. Defined.

(** ** Options *)

Lemma filter_nil_Forall {A} (f : A -> bool) (l : list A) :
  List.filter f l = [] <-> Forall (fun x => f x = false) l.
Proof.
  induction l as [|x l IH]; cbn.
  - split; auto.
  - destruct (f x) eqn:E.
    + split; [discriminate|]. intros H. inversion H; congruence.
    + rewrite IH. split; [now constructor|]. intros H. now inversion H.
Qed.

Lemma formats_startScan_options o w :
  _formats (startScan_options o w)
  = match o with
    | Some {| targetedFormats := Some fs |} =>
        map (fun _ => 0%N) (List.filter recognized fs)
    | _ => []
    end.
Proof.
  unfold startScan_options.
  destruct o as [[[fs|] d]|].
  - set (w1 := set_formats [] _).
    destruct (fold_targeted_formats fs w1) as [E _].
    destruct d; cbn; now rewrite E.
  - now destruct d.
  - reflexivity.
Qed.

(** X13: every [startScan] starts from an empty list of formats, and the
    reader gets no hints at all -- so no restriction -- exactly when the
    options name no format or name none that is recognized; otherwise it
    gets one entry for each recognized name. *)
Theorem hints_of_reader
    (o : option ScanOptions) (w : World) (video call : nat) :
  let w1 := startScan_options o w in
  let h := hints (new_session video call by_startScan w1) in
  sessions (_getFirstResultFromReader video call by_startScan w1)
  = sessions w1 ++ [new_session video call by_startScan w1]
  /\ match o with
     | Some {| targetedFormats := Some fs |} =>
         (h = None <-> Forall (fun f => recognized f = false) fs)
         /\ (forall l, h = Some l ->
               length l = length (List.filter recognized fs))
     | _ => h = None
     end.
Proof.
  intros w1 h. split; [reflexivity|].
  unfold h, new_session. cbn. unfold w1.
  rewrite formats_startScan_options.
  destruct o as [[[fs|] d]|]; try reflexivity.
  split.
  - rewrite <- filter_nil_Forall.
    destruct (List.filter recognized fs); cbn; split; congruence.
  - intros l. destruct (List.filter recognized fs) eqn:E; cbn;
      [discriminate|].
    intros H. injection H as <-. cbn. now rewrite length_map.
Qed.

Lemma options__getVideoElement caller call w :
  _options (_getVideoElement caller call w) = _options w
  /\ _facingMode (_getVideoElement caller call w) = _facingMode w
  /\ isSafari (_getVideoElement caller call w) = isSafari w
  /\ length (videos (_getVideoElement caller call w)) = length (videos w).
Proof.
  unfold _getVideoElement, resume_getVideoElement, continue_with_video,
    _getFirstResultFromReader, _startVideo, settle_call.
  by_cases; repeat split.
Qed.

Lemma facingMode_startScan_options o w :
  _facingMode (startScan_options o w)
  = match o with
    | Some {| cameraDirection := Some BACK |} => _BACK
    | Some {| cameraDirection := Some FRONT |} => _FORWARD
    | _ => _facingMode w
    end
  /\ _options (startScan_options o w) = o
  /\ isSafari (startScan_options o w) = isSafari w.
Proof.
  assert (forall fs w1, _facingMode (fold_left targeted fs w1) = _facingMode w1
                        /\ _options (fold_left targeted fs w1) = _options w1
                        /\ isSafari (fold_left targeted fs w1) = isSafari w1)
    as Hf.
  { induction fs as [|f fs IH]; intros w1; cbn; [now repeat split|].
    destruct (IH (targeted w1 f)) as (-> & -> & ->). unfold targeted.
    now destruct (0 <=? _)%Z. }
  unfold startScan_options.
  destruct o as [[[fs|] [[|]|]]|]; cbn; try (now repeat split).
  all: match goal with
       | |- context [fold_left targeted ?l ?x] =>
           destruct (Hf l x) as (E1 & E2 & E3)
       end.
  all: rewrite ?E1, ?E2, ?E3; now repeat split.
Qed.

Lemma _startVideo_probed_current w k tracks :
  acquisitions w !! k = Some (AwaitProbe (_video_nonce w)) ->
  body w = [] ->
  let w' := step w (media_resolved k tracks) in
  acquisitions w' !! k
  = Some (AwaitStream (_video_nonce w) (length (videos w)) (_facingMode w))
  /\ videos w' !! length (videos w)
     = Some {| mirrored := negb (is_BACK (_options w));
               inlineAutoplay := isSafari w;
               srcObject := None; playing := false |}.
Proof.
  intros Hk Hb.
  assert (k < length (acquisitions w)) as Hlt by (eapply lookup_lt_Some; eauto).
  cbn. rewrite Hk.
  unfold _startVideo_probed, getUserMedia, stopStream, getElementById_video.
  cbn. rewrite N.eqb_refl, Hb. cbn. split.
  - now apply list_lookup_insert_eq.
  - now rewrite lookup_app_r, Nat.sub_diag by auto.
Qed.

(** X14: a [startScan] that names no camera direction keeps the
    constraint of the last one that did (the rear camera at first), but
    the video element it creates is mirrored all the same: mirroring
    follows the options of the latest call, the constraint follows
    [_facingMode]. *)
Theorem direction_is_kept_mirroring_is_not
    (w : World) (o : option ScanOptions) (k tracks : nat) :
  reachable w -> no_direction o = true ->
  let w1 := step w (call_startScan o) in
  acquisitions w1 !! k = Some (AwaitProbe (_video_nonce w1)) ->
  let w2 := step w1 (media_resolved k tracks) in
  acquisitions w2 !! k
  = Some (AwaitStream (_video_nonce w1) (length (videos w)) (_facingMode w))
  /\ videos w2 !! length (videos w)
     = Some {| mirrored := true; inlineAutoplay := isSafari w;
               srcObject := None; playing := false |}.
Proof.
  intros Hr Ho w1 Hk w2.
  assert (reachable w1) as Hr1 by apply (reachable_step w _ Hr).
  assert (body w1 = match _video w1 with Some v => [v] | None => [] end)
    as Hb by apply (inv_body _ (Inv_reachable w1 Hr1)).
  assert (_video w1 = None) as Hv.
  { destruct (inv_flight _ (Inv_reachable w1 Hr1) _ _ Hk eq_refl)
      as (_ & H & _). exact H. }
  assert (body w1 = []) as Hb1 by now rewrite Hb, Hv.
  set (w0 := startScan_options o (set_calls (calls w ++ [Pending]) w)).
  destruct (options__getVideoElement by_startScan (length (calls w)) w0)
    as (E1 & E2 & E3 & E4).
  destruct (facingMode_startScan_options o (set_calls (calls w ++ [Pending]) w))
    as (F1 & F2 & F3).
  fold w0 in F1, F2, F3.
  assert (videos w0 = videos w) as Evs.
  { pose proof (beyond_options_startScan_options o
                  (set_calls (calls w ++ [Pending]) w)) as H.
    unfold beyond_options in H. injection H. intros. assumption. }
  change (_getVideoElement by_startScan (length (calls w)) w0) with w1
    in E1, E2, E3, E4.
  destruct (_startVideo_probed_current w1 k tracks Hk Hb1) as [H1 H2].
  fold w2 in H1, H2.
  rewrite E4, Evs in H1, H2. rewrite E2, F1 in H1. rewrite E1, F2, E3, F3 in H2.
  cbn in F3.
  assert (is_BACK o = false) as Hback.
  { destruct o as [[fs [d|]]|]; try reflexivity. discriminate Ho. }
  rewrite Hback in H2. split; [|exact H2].
  rewrite H1. destruct o as [[fs [d|]]|]; try reflexivity. discriminate Ho.
Qed.

Lemma direction_is_kept_mirroring_is_not_witness :
  let w1 := step (initial true false) (call_startScan None) in
  let w2 := step w1 (media_resolved 0 1) in
  acquisitions w2 !! 0 = Some (AwaitStream 0 0 environment)
  /\ videos w2 !! 0
     = Some {| mirrored := true; inlineAutoplay := false;
               srcObject := None; playing := false |}.
Proof.
  apply (direction_is_kept_mirroring_is_not (initial true false) None 0 1).
  - apply (reachable_run true false []).
  - reflexivity.
  - reflexivity.
Defined.

(** ** The callers that share an acquisition *)

Lemma length_calls_resume_getVideoElement r caller call w :
  length (calls (resume_getVideoElement r caller call w)) = length (calls w).
Proof.
  unfold resume_getVideoElement, continue_with_video,
    _getFirstResultFromReader, settle_call.
  by_cases; now rewrite length_insert.
Qed.

Lemma length_calls_resume_waiters k r ws : forall w,
  length (calls (resume_waiters k r ws w)) = length (calls w).
Proof.
  induction ws as [|z ws IH]; intros w; cbn; [reflexivity|].
  destruct (Nat.eqb (awaited z) k); rewrite IH; [|reflexivity].
  apply length_calls_resume_getVideoElement.
Qed.

Lemma length_calls_settle_acquisition k r w :
  length (calls (settle_acquisition k r w)) = length (calls w).
Proof. unfold settle_acquisition. now rewrite length_calls_resume_waiters. Qed.

(** A rejection is only ever overwritten by itself. *)
Lemma rejected_stays k e ws i : forall w,
  calls w !! i = Some (Failed e) ->
  calls (resume_waiters k (Some e) ws w) !! i = Some (Failed e).
Proof.
  induction ws as [|z ws IH]; intros w Hi; cbn; [exact Hi|].
  destruct (Nat.eqb (awaited z) k); apply IH; [|exact Hi].
  cbn. unfold settle_call; cbn.
  destruct (decide (waiter_call z = i)) as [->|Hne].
  - apply list_lookup_insert_eq. eapply lookup_lt_Some; eauto.
  - now rewrite list_lookup_insert_ne.
Qed.

Lemma resume_waiters_rejected k e ws y : forall w,
  In y ws -> awaited y = k -> waiter_call y < length (calls w) ->
  calls (resume_waiters k (Some e) ws w) !! waiter_call y = Some (Failed e).
Proof.
  induction ws as [|z ws IH]; intros w Hin Hk Hlt; [destruct Hin|].
  cbn. destruct Hin as [->|Hin].
  - rewrite Hk, Nat.eqb_refl. apply rejected_stays.
    cbn. unfold settle_call; cbn. now apply list_lookup_insert_eq.
  - destruct (Nat.eqb (awaited z) k); apply IH; auto.
    unfold settle_call; cbn. now rewrite length_insert.
Qed.

Lemma waiters__getVideoElement caller call w :
  waiters (_getVideoElement caller call w) = waiters w
  \/ exists k, waiters (_getVideoElement caller call w)
               = waiters w
                 ++ [{| awaited := k; waiter_call := call;
                        waiter_caller := caller |}].
Proof.
  unfold _getVideoElement, resume_getVideoElement, continue_with_video,
    _getFirstResultFromReader, _startVideo, settle_call.
  by_cases; eauto.
Qed.

Lemma length_calls__getVideoElement caller call w :
  length (calls (_getVideoElement caller call w)) = length (calls w).
Proof.
  unfold _getVideoElement, resume_getVideoElement, continue_with_video,
    _getFirstResultFromReader, _startVideo, settle_call.
  by_cases; now rewrite ?length_insert.
Qed.

Lemma Queued_weaken w w' :
  (forall y, In y (waiters w') ->
     In y (waiters w) \/ waiter_call y < length (calls w')) ->
  length (calls w) <= length (calls w') ->
  Queued w -> Queued w'.
Proof.
  unfold Queued. rewrite !Forall_forall. intros H Hl HQ y Hy.
  apply list_elem_of_In in Hy.
  destruct (H y Hy) as [Hin|Hlt]; [|exact Hlt].
  apply list_elem_of_In in Hin. specialize (HQ y Hin). lia.
Qed.

Lemma Queued_same w w' :
  waiters w' = waiters w -> length (calls w) <= length (calls w') ->
  Queued w -> Queued w'.
Proof.
  intros E Hl. apply Queued_weaken; [|exact Hl].
  intros y Hy. left. now rewrite <- E.
Qed.

Lemma Queued__getVideoElement caller w w1 :
  waiters w1 = waiters w -> calls w1 = calls w ++ [Pending] ->
  Queued w -> Queued (_getVideoElement caller (length (calls w)) w1).
Proof.
  intros Ew Ec. apply Queued_weaken.
  - intros y Hy. rewrite length_calls__getVideoElement, Ec, length_app. cbn.
    destruct (waiters__getVideoElement caller (length (calls w)) w1)
      as [E|[k E]]; rewrite E, Ew in Hy.
    + now left.
    + apply in_app_or in Hy as [Hy|[<-|[]]]; [now left|right]. cbn. lia.
  - rewrite length_calls__getVideoElement, Ec, length_app. cbn. lia.
Qed.

Lemma Queued_settle_acquisition k r w w0 :
  waiters w0 = waiters w -> length (calls w0) = length (calls w) ->
  Queued w -> Queued (settle_acquisition k r w0).
Proof.
  intros Ew Ec. apply Queued_weaken.
  - intros y Hy. left. rewrite settle_acquisition_waiters, Ew in Hy.
    now apply List.filter_In in Hy as [Hy _].
  - rewrite length_calls_settle_acquisition. lia.
Qed.

Lemma Queued_step w ev : Queued w -> Queued (step w ev).
Proof.
  intros HQ. destruct ev; cbn.
  - apply Queued__getVideoElement; auto.
  - unfold startScan, new_call.
    pose proof (beyond_options_startScan_options o
                  (set_calls (calls w ++ [Pending]) w)) as H.
    unfold beyond_options in H. injection H. intros Ec _ Ew _ _ _ _ _ _ _ _ _ _.
    now apply Queued__getVideoElement.
  - apply (Queued_same w); [|  |exact HQ];
      unfold pauseScanning, new_call, settle_call, controls_stop;
      by_cases; rewrite ?length_insert, ?length_app; cbn; lia.
  - apply Queued__getVideoElement; auto.
  - apply (Queued_same w); [|  |exact HQ];
      unfold stopScan, new_call, settle_call, controls_stop, _stop, stopVideo,
        stopStream;
      by_cases; rewrite ?length_insert, ?length_app; cbn; lia.
  - apply (Queued_same w); [|  |exact HQ];
      unfold disableTorch, new_call, settle_call, switchTorch;
      by_cases; rewrite ?length_insert, ?length_app; cbn; lia.
  - apply (Queued_same w); [|  |exact HQ];
      unfold enableTorch, new_call, settle_call, switchTorch;
      by_cases; rewrite ?length_insert, ?length_app; cbn; lia.
  - apply (Queued_same w); [|  |exact HQ];
      unfold toggleTorch, new_call, settle_call, switchTorch;
      by_cases; rewrite ?length_insert, ?length_app; cbn; lia.
  - destruct (acquisitions w !! k) as [[n|n video f|n video s| |e]|];
      try exact HQ.
    + unfold _startVideo_probed, getUserMedia, stopStream. cbn.
      destruct (negb _); [now apply (Queued_settle_acquisition _ _ w)|].
      destruct (getElementById_video _);
        [now apply (Queued_settle_acquisition _ _ w)|].
      now apply (Queued_same w).
    + unfold _startVideo_streamed, getUserMedia, stopStream. cbn.
      destruct (negb _); [now apply (Queued_settle_acquisition _ _ w)|].
      now apply (Queued_same w).
  - destruct (acquisitions w !! k) as [[n|n video f|n video s| |e]|];
      try exact HQ; now apply (Queued_settle_acquisition _ _ w).
  - destruct (acquisitions w !! k) as [[n|n video f|n video s| |e]|];
      try exact HQ.
    unfold _startVideo_played, stopStream. cbn.
    destruct (negb _); now apply (Queued_settle_acquisition _ _ w).
  - destruct (acquisitions w !! k) as [[n|n video f|n video s| |e]|];
      try exact HQ; now apply (Queued_settle_acquisition _ _ w).
  - apply (Queued_same w); [|  |exact HQ];
      unfold decode_started; by_cases.
  - apply (Queued_same w); [|  |exact HQ];
      unfold decode_failed; by_cases.
  - apply (Queued_same w); [|  |exact HQ];
      unfold invoke_callback, finish_session, finally, settle_call,
        controls_stop, _stop, stopVideo, stopStream;
      by_cases; rewrite ?length_insert; lia.
Qed.

Lemma Queued_reachable w : reachable w -> Queued w.
Proof.
  intros (m & s & evs & ->).
  assert (forall w, Queued w -> Queued (run w evs)) as H.
  { induction evs as [|ev evs IH]; intros w HQ; [exact HQ|].
    apply (IH (step w ev)). now apply Queued_step. }
  apply H. constructor.
Qed.

Lemma waiters_settled k r w z :
  In z (waiters (settle_acquisition k r w)) -> awaited z <> k.
Proof.
  rewrite settle_acquisition_waiters. intros H.
  apply List.filter_In in H as [_ H]. apply negb_true_iff in H.
  now apply Nat.eqb_neq in H.
Qed.

(** X15: when the media request or the [play()] that a pending
    acquisition awaits is rejected, the acquisition is rejected with
    that error, and so is every call that was suspended on its promise;
    no caller is left waiting on it. *)
Theorem rejection_reaches_every_caller
    (w : World) (k : nat) (x : Acquisition) (y : Waiter) (name : string) :
  reachable w ->
  acquisitions w !! k = Some x -> in_flight x = true ->
  In y (waiters w) -> awaited y = k ->
  let w' := step w (rejection x k name) in
  acquisitions w' !! k = Some (Rejected (DOMException name))
  /\ calls w' !! waiter_call y = Some (Failed (DOMException name))
  /\ forall z, In z (waiters w') -> awaited z <> k.
Proof.
  intros Hr Hk Hx Hy Hyk w'.
  assert (waiter_call y < length (calls w)) as Hlt.
  { pose proof (Queued_reachable w Hr) as HQ. unfold Queued in HQ.
    rewrite Forall_forall in HQ. apply HQ. now apply list_elem_of_In. }
  assert (w' = settle_acquisition k (Some (DOMException name)) w) as ->.
  { unfold w'. destruct x; try discriminate Hx; cbn; now rewrite Hk. }
  split; [|split].
  - rewrite settle_acquisition_acquisitions.
    apply list_lookup_insert_eq. eapply lookup_lt_Some; eauto.
  - unfold settle_acquisition. now apply resume_waiters_rejected.
  - intros z. apply waiters_settled.
Qed.

Lemma rejection_reaches_every_caller_witness :
  let w := run (initial true false) [call_startScan None; call_prepare] in
  let w' := step w (media_rejected 0 "NotAllowedError") in
  acquisitions w' !! 0 = Some (Rejected (DOMException "NotAllowedError"))
  /\ calls w' !! 1 = Some (Failed (DOMException "NotAllowedError"))
  /\ forall z, In z (waiters w') -> awaited z <> 0.
Proof.
  intros w.
  apply (rejection_reaches_every_caller w 0 (AwaitProbe 0)
           {| awaited := 0; waiter_call := 1; waiter_caller := by_prepare |}
           "NotAllowedError").
  - apply reachable_run.
  - reflexivity.
  - reflexivity.
  - right. now left.
  - reflexivity.
Defined.

Lemma resolved_stays k ws i video : forall w,
  _video w = Some video ->
  calls w !! i = Some (Resolved VVoid) ->
  calls (resume_waiters k None ws w) !! i = Some (Resolved VVoid).
Proof.
  induction ws as [|z ws IH]; intros w Hv Hi; cbn; [exact Hi|].
  destruct (Nat.eqb (awaited z) k); [|now apply IH].
  apply IH.
  - pose proof (core_resume_getVideoElement None (waiter_caller z)
                  (waiter_call z) w) as H.
    unfold core in H. injection H. intros. congruence.
  - unfold resume_getVideoElement, continue_with_video,
      _getFirstResultFromReader, settle_call. rewrite Hv.
    destruct (waiter_caller z); cbn; try exact Hi.
    destruct (decide (waiter_call z = i)) as [->|Hne].
    + apply list_lookup_insert_eq. eapply lookup_lt_Some; eauto.
    + now rewrite list_lookup_insert_ne.
Qed.

Lemma sessions_grow k r ws s0 : forall w,
  In s0 (sessions w) -> In s0 (sessions (resume_waiters k r ws w)).
Proof.
  induction ws as [|z ws IH]; intros w Hin; cbn; [exact Hin|].
  destruct (Nat.eqb (awaited z) k); apply IH; [|exact Hin].
  unfold resume_getVideoElement, continue_with_video,
    _getFirstResultFromReader, settle_call.
  by_cases; try exact Hin; apply in_or_app; now left.
Qed.

Lemma resume_waiters_fulfilled k ws y video wref : forall w,
  _video w = Some video -> _formats w = _formats wref ->
  In y ws -> awaited y = k -> waiter_call y < length (calls w) ->
  let w' := resume_waiters k None ws w in
  match waiter_caller y with
  | by_prepare => calls w' !! waiter_call y = Some (Resolved VVoid)
  | caller => In (new_session video (waiter_call y) caller wref) (sessions w')
  end.
Proof.
  induction ws as [|z ws IH]; intros w Hv Hf Hin Hk Hlt; [destruct Hin|].
  assert (core (resume_getVideoElement None (waiter_caller z)
                  (waiter_call z) w) = core w) as Hc
    by apply core_resume_getVideoElement.
  unfold core in Hc. injection Hc. intros _ _ _ _ _ _ _ _ _ _ _ _ Hpv Hv' _ _ Hf'.
  change (resume_waiters k None (z :: ws) w)
    with (if Nat.eqb (awaited z) k
          then resume_waiters k None ws
                 (resume_getVideoElement None (waiter_caller z)
                    (waiter_call z) w)
          else resume_waiters k None ws w).
  destruct Hin as [->|Hin].
  - rewrite Hk, Nat.eqb_refl.
    assert (resume_getVideoElement None (waiter_caller y) (waiter_call y) w
            = continue_with_video (waiter_caller y) (waiter_call y) video w)
      as -> by (unfold resume_getVideoElement; now rewrite Hv).
    unfold continue_with_video. cbv zeta.
    destruct (waiter_caller y) eqn:Ec.
    + apply (resolved_stays _ _ _ video); [exact Hv|].
      unfold settle_call; cbn. now apply list_lookup_insert_eq.
    + apply sessions_grow. unfold _getFirstResultFromReader, new_session; cbn.
      apply in_or_app. right. left. now rewrite Hf.
    + apply sessions_grow. unfold _getFirstResultFromReader, new_session; cbn.
      apply in_or_app. right. left. now rewrite Hf.
  - destruct (Nat.eqb (awaited z) k).
    + apply IH; auto; try congruence.
      now rewrite length_calls_resume_getVideoElement.
    + now apply IH.
Qed.

(** X16: when [play()] resolves with the generation still current, the
    video element is installed as the only one of the document, and
    every call suspended on the promise of the acquisition goes on with
    it: a [prepare] is resolved, a [startScan] or [resumeScanning] gets
    a decode session on the installed element; no caller is left
    waiting. *)
Theorem installation_reaches_every_caller
    (w : World) (k video s : nat) (y : Waiter) :
  reachable w ->
  acquisitions w !! k = Some (AwaitPlay (_video_nonce w) video s) ->
  In y (waiters w) -> awaited y = k ->
  let w' := step w (play_resolved k) in
  _video w' = Some video /\ body w' = [video] /\ _videoPromise w' = None
  /\ acquisitions w' !! k = Some Fulfilled
  /\ (forall z, In z (waiters w') -> awaited z <> k)
  /\ match waiter_caller y with
     | by_prepare => calls w' !! waiter_call y = Some (Resolved VVoid)
     | caller => In (new_session video (waiter_call y) caller w) (sessions w')
     end.
Proof.
  intros Hr Hk Hy Hyk w'.
  assert (waiter_call y < length (calls w)) as Hlt.
  { pose proof (Queued_reachable w Hr) as HQ. unfold Queued in HQ.
    rewrite Forall_forall in HQ. apply HQ. now apply list_elem_of_In. }
  destruct (Inv_reachable w Hr) as [Hb Hf].
  destruct (Hf _ _ Hk eq_refl) as (_ & Hv & _). cbn in Hb, Hv.
  set (w0 := set_videoPromise None
               (set_video (Some video)
                  (set_body (body w ++ [video])
                     (set_videos (alter play video (videos w)) w)))).
  assert (w' = settle_acquisition k None w0) as ->.
  { unfold w'. cbn. rewrite Hk. unfold _startVideo_played. cbn.
    now rewrite N.eqb_refl. }
  split; [now rewrite settle_acquisition_video|].
  split; [rewrite settle_acquisition_body; cbn; now rewrite Hb, Hv|].
  split; [now rewrite settle_acquisition_videoPromise|]. split.
  { rewrite settle_acquisition_acquisitions. cbn.
    apply list_lookup_insert_eq. eapply lookup_lt_Some; eauto. }
  split; [intros z; apply waiters_settled|].
  unfold settle_acquisition.
  apply (resume_waiters_fulfilled k (waiters w0) y video w); auto.
Qed.

Lemma installation_reaches_every_caller_witness :
  let w := run (initial true false)
             [call_startScan None; call_prepare; media_resolved 0 1;
              media_resolved 0 1] in
  let w' := step w (play_resolved 0) in
  _video w' = Some 0 /\ body w' = [0] /\ _videoPromise w' = None
  /\ acquisitions w' !! 0 = Some Fulfilled
  /\ (forall z, In z (waiters w') -> awaited z <> 0)
  /\ calls w' !! 1 = Some (Resolved VVoid).
Proof.
  intros w.
  apply (installation_reaches_every_caller w 0 0 1
           {| awaited := 0; waiter_call := 1; waiter_caller := by_prepare |}).
  - apply reachable_run.
  - reflexivity.
  - right. now left.
  - reflexivity.
Defined.

(** ** Streams *)

Lemma streams_shape w ev :
  exists (extra : list MediaStream) (stop : option nat),
    streams (step w ev)
    = match stop with
      | Some s => alter (map (fun _ => ended)) s (streams w ++ extra)
      | None => streams w ++ extra
      end.
Proof.
  set (P := fun l : list MediaStream =>
              exists (extra : list MediaStream) (stop : option nat),
                l = match stop with
                    | Some s =>
                        alter (map (fun _ => ended)) s (streams w ++ extra)
                    | None => streams w ++ extra
                    end).
  change (P (streams (step w ev))).
  assert (forall caller call w1, streams w1 = streams w ->
            streams (_getVideoElement caller call w1) = streams w) as Hg.
  { intros caller call w1 <-. unfold _getVideoElement,
      resume_getVideoElement, continue_with_video,
      _getFirstResultFromReader, _startVideo, settle_call. by_cases. }
  assert (P (streams w)) as Hsame.
  { exists [], None. now rewrite app_nil_r. }
  assert (forall s, P (alter (map (fun _ => ended)) s (streams w))) as Hstop.
  { intros s. exists [], (Some s). now rewrite app_nil_r. }
  assert (forall x, P (streams w ++ [x])) as Hnew.
  { intros x. exists [x], None. reflexivity. }
  assert (forall s x, P (alter (map (fun _ => ended)) s (streams w ++ [x])))
    as Hnewstop.
  { intros s x. exists [x], (Some s). reflexivity. }
  clearbody P.
  destruct ev; cbn.
  - unfold prepare, new_call. now rewrite Hg.
  - unfold startScan, new_call. rewrite Hg; [assumption|].
    pose proof (beyond_options_startScan_options o
                  (set_calls (calls w ++ [Pending]) w)) as H.
    unfold beyond_options in H. injection H. intros. assumption.
  - unfold pauseScanning, new_call, settle_call, controls_stop.
    by_cases; assumption.
  - unfold resumeScanning, new_call. now rewrite Hg.
  - unfold stopScan, new_call, settle_call, controls_stop, _stop, stopVideo,
      stopStream.
    by_cases; first [assumption|apply Hstop].
  - unfold disableTorch, new_call, settle_call, torch_controls, switchTorch.
    by_cases; assumption.
  - unfold enableTorch, new_call, settle_call, torch_controls, switchTorch.
    by_cases; assumption.
  - unfold toggleTorch, new_call, settle_call, torch_controls, switchTorch.
    by_cases; assumption.
  - unfold _startVideo_probed, _startVideo_streamed, getUserMedia, stopStream.
    by_cases; rewrite ?settle_acquisition_streams; cbn;
      first [assumption|apply Hstop|apply Hnew|apply Hnewstop].
  - by_cases; rewrite ?settle_acquisition_streams; cbn; assumption.
  - unfold _startVideo_played, stopStream.
    by_cases; rewrite ?settle_acquisition_streams; cbn;
      first [assumption|apply Hstop].
  - by_cases; rewrite ?settle_acquisition_streams; cbn; assumption.
  - unfold decode_started. by_cases; assumption.
  - unfold decode_failed. by_cases; assumption.
  - unfold invoke_callback, finish_session, finally, settle_call,
      controls_stop, _stop, stopVideo, stopStream.
    by_cases; first [assumption|apply Hstop].
Qed.

Lemma later_tracks_refl tr : later_tracks tr tr.
Proof. now split. Qed.

Lemma later_tracks_trans a b c :
  later_tracks a b -> later_tracks b c -> later_tracks a c.
Proof. intros [L1 H1] [L2 H2]. split; [congruence|auto]. Qed.

Lemma later_tracks_ended tr : later_tracks tr (map (fun _ => ended) tr).
Proof.
  split; [now rewrite length_map|].
  intros i Hi. rewrite list_lookup_fmap, Hi. reflexivity.
Qed.

Lemma later_tracks_step w ev s tr :
  streams w !! s = Some tr ->
  exists tr', streams (step w ev) !! s = Some tr' /\ later_tracks tr tr'.
Proof.
  intros Hs. destruct (streams_shape w ev) as (extra & stop & ->).
  assert ((streams w ++ extra) !! s = Some tr) as Hs'
    by now apply lookup_app_l_Some.
  destruct stop as [s0|]; [|exists tr; split; [exact Hs'|apply later_tracks_refl]].
  destruct (decide (s = s0)) as [->|Hne].
  - exists (map (fun _ => ended) tr). split; [|apply later_tracks_ended].
    unfold MediaStream in *. now rewrite list_lookup_alter_eq, Hs'.
  - exists tr. split; [|apply later_tracks_refl].
    unfold MediaStream in *. now rewrite list_lookup_alter_ne.
Qed.

(** X17: streams are never dropped and tracks never revived: through
    any run, a stream that exists keeps existing with the same number
    of tracks, and every track of it that has ended stays ended. *)
Theorem ended_tracks_stay_ended
    (w : World) (evs : list Event) (s : nat) (tracks : list ReadyState) :
  streams w !! s = Some tracks ->
  exists tracks',
    streams (run w evs) !! s = Some tracks' /\ later_tracks tracks tracks'.
Proof.
  revert w tracks. induction evs as [|ev evs IH]; intros w tr Hs.
  - exists tr. split; [exact Hs|apply later_tracks_refl].
  - destruct (later_tracks_step w ev s tr Hs) as (tr1 & Hs1 & L1).
    destruct (IH (step w ev) tr1 Hs1) as (tr2 & Hs2 & L2).
    exists tr2. split; [exact Hs2|]. eapply later_tracks_trans; eauto.
Qed.

Lemma ended_tracks_stay_ended_witness :
  exists tracks',
    streams (run decoding [call_stopScan; call_startScan None]) !! 1
    = Some tracks' /\ later_tracks [live] tracks'.
Proof.
  apply (ended_tracks_stay_ended decoding
           [call_stopScan; call_startScan None] 1 [live]).
  reflexivity.
Defined.

(** ** Sessions that overlap *)

Lemma scanners__stop w : scanners (_stop w) = scanners w.
Proof. unfold _stop, stopVideo, stopStream. by_cases. Qed.

Lemma finish_session_controls d s o w :
  _controls (finish_session d s o w) = None
  /\ scanners (finish_session d s o w)
     = match _controls w with
       | Some c =>
           alter (fun s => {| stopped := true; torch := torch s |}) c
             (scanners w)
       | None => scanners w
       end.
Proof.
  unfold finish_session, finally, settle_call, controls_stop, _stop,
    stopVideo, stopStream.
  by_cases; auto.
Qed.

(** X18: [_controls] is one field shared by all decode sessions.  When
    the engine has started two sessions, the field holds the controls
    of the one started last; the callback of the other session settling
    its promise stops those, and the controls of the settled session
    itself are left running. *)
Theorem settled_session_stops_the_other
    (w : World) (d0 d1 : nat) (s0 s1 : DecodeSession) (t0 t1 : option bool)
    (result : option Result) (error : option Exception) :
  d0 <> d1 ->
  sessions w !! d0 = Some s0 -> starting s0 = true -> settled s0 = false ->
  sessions w !! d1 = Some s1 -> starting s1 = true ->
  (forall name, callback result error <> ignored name) ->
  let w' := run w [decode_resolved d0 t0; decode_resolved d1 t1;
                   frame d0 result error] in
  scanners w'
  = scanners w ++ [{| stopped := false; torch := t0 |};
                   {| stopped := true; torch := t1 |}]
  /\ _controls w' = None.
Proof.
  intros Hne H0 St0 Se0 H1 St1 Hcb w'. subst w'.
  change (run w [decode_resolved d0 t0; decode_resolved d1 t1;
                 frame d0 result error])
    with (invoke_callback d0 result error
            (decode_started d1 t1 (decode_started d0 t0 w))).
  set (w1 := decode_started d0 t0 w).
  assert (sessions w1 = <[d0 := mark_started s0]> (sessions w)
          /\ scanners w1 = scanners w ++ [{| stopped := false; torch := t0 |}])
    as [Ss1 Sc1].
  { unfold w1, decode_started. rewrite H0, St0. cbn. auto. }
  set (w2 := decode_started d1 t1 w1).
  assert (sessions w1 !! d1 = Some s1) as H1'.
  { rewrite Ss1, list_lookup_insert_ne by auto. exact H1. }
  assert (sessions w2 = <[d1 := mark_started s1]> (sessions w1)
          /\ scanners w2
             = scanners w1 ++ [{| stopped := false; torch := t1 |}]
          /\ _controls w2 = Some (length (scanners w1)))
    as (Ss2 & Sc2 & Ec2).
  { unfold w2, decode_started. rewrite H1', St1. cbn. auto. }
  assert (sessions w2 !! d0 = Some (mark_started s0)) as H0'.
  { rewrite Ss2, list_lookup_insert_ne, Ss1 by auto.
    apply list_lookup_insert_eq. eapply lookup_lt_Some; eauto. }
  unfold invoke_callback. rewrite H0'. cbn [mark_started settled].
  rewrite Se0.
  assert (forall o,
            scanners (finish_session d0 (mark_started s0) o w2)
            = scanners w ++ [{| stopped := false; torch := t0 |};
                             {| stopped := true; torch := t1 |}]
            /\ _controls (finish_session d0 (mark_started s0) o w2) = None)
    as Hfin.
  { intros o.
    destruct (finish_session_controls d0 (mark_started s0) o w2) as [-> ->].
    split; [|reflexivity].
    rewrite Ec2, Sc2, Sc1, <- app_assoc. cbn.
    rewrite length_app. cbn.
    replace (length (scanners w) + 1) with (length (scanners w) + 1 + 0)
      by lia.
    change [ {| stopped := false; torch := t0 |};
             {| stopped := false; torch := t1 |} ]
      with ([ {| stopped := false; torch := t0 |} ]
            ++ [ {| stopped := false; torch := t1 |} ]).
    rewrite app_assoc.
    replace (length (scanners w) + 1 + 0)
      with (length (scanners w ++ [{| stopped := false; torch := t0 |}]) + 0)
      by (rewrite length_app; cbn; lia).
    rewrite alter_app_r. cbn. now rewrite <- app_assoc. }
  destruct (callback result error) as [name|e|r] eqn:Ecb.
  - now destruct (Hcb name).
  - apply Hfin.
  - apply Hfin.
Qed.

Lemma settled_session_stops_the_other_witness :
  let w' := run two_sessions [decode_resolved 0 None; decode_resolved 1 None;
                              frame 0 None None] in
  scanners w'
  = scanners two_sessions ++ [{| stopped := false; torch := None |};
                              {| stopped := true; torch := None |}]
  /\ _controls w' = None.
Proof.
  apply (settled_session_stops_the_other two_sessions 0 1
           (new_session 0 0 by_startScan two_sessions)
           (new_session 0 1 by_resumeScanning two_sessions)
           None None None None).
  - lia.
  - vm_compute. reflexivity.
  - reflexivity.
  - reflexivity.
  - vm_compute. reflexivity.
  - reflexivity.
  - intros name. cbn. discriminate.
Defined.

(** ** Stopping twice *)

Lemma stopScan_idle w :
  _video w = None -> _controls w = None ->
  core (stopScan w) = core (set_video_nonce (N.succ (_video_nonce w)) w)
  /\ sessions (stopScan w) = sessions w
  /\ waiters (stopScan w) = waiters w
  /\ calls (stopScan w) = calls w ++ [Resolved VVoid].
Proof.
  intros Ev Ec.
  unfold stopScan, new_call, settle_call, _stop, core. cbn.
  rewrite Ev. cbn. rewrite Ec. cbn. rewrite Ev, Ec.
  rewrite insert_app_r_alt, Nat.sub_diag by lia. cbn. auto.
Qed.

(** X19: a second [stopScan] right after a first one changes nothing
    but the counter, which it increments again, and the call log. *)
Theorem stopScan_twice (w : World) :
  let w1 := stopScan w in
  let w2 := stopScan w1 in
  core w2 = core (set_video_nonce (N.succ (_video_nonce w1)) w1)
  /\ sessions w2 = sessions w1
  /\ waiters w2 = waiters w1
  /\ calls w2 = calls w1 ++ [Resolved VVoid].
Proof.
  intros w1 w2. apply stopScan_idle.
  all: unfold w1, stopScan, new_call, settle_call, controls_stop, _stop,
         stopVideo, stopStream; by_cases; cbn in *; assumption.
Qed.

(** ** Calls while a video element is installed *)

Lemma options_fold_targeted fs : forall w,
  _options (fold_left targeted fs w) = _options w.
Proof.
  induction fs as [|f fs IH]; intros w; cbn [fold_left]; [reflexivity|].
  rewrite IH. unfold targeted. now destruct (0 <=? _)%Z.
Qed.

(** X20: while a video element is installed the camera is not touched
    by new calls.  [prepare] resolves at once and changes nothing but
    the call log; [startScan] stores its options and starts a decode
    session on the installed element, whatever direction it asks for:
    no media request, no new element, the streams as they were. *)
Theorem installed_video_is_reused
    (w : World) (video : nat) (o : option ScanOptions) :
  _video w = Some video ->
  prepare w = set_calls (calls w ++ [Resolved VVoid]) w
  /\ let w' := startScan o w in
     _video w' = Some video /\ _videoPromise w' = _videoPromise w
     /\ acquisitions w' = acquisitions w /\ waiters w' = waiters w
     /\ streams w' = streams w /\ videos w' = videos w /\ body w' = body w
     /\ _controls w' = _controls w /\ _video_nonce w' = _video_nonce w
     /\ _options w' = o
     /\ sessions w'
        = sessions w
          ++ [new_session video (length (calls w)) by_startScan
                (startScan_options o w)]
     /\ calls w' = calls w ++ [Pending].
Proof.
  intros Ev. split.
  - unfold prepare, new_call, _getVideoElement, continue_with_video,
      settle_call. cbn. rewrite Ev. cbn.
    rewrite insert_app_r_alt, Nat.sub_diag by lia. reflexivity.
  - intros w'. subst w'. unfold startScan, new_call.
    set (w0 := set_calls (calls w ++ [Pending]) w).
    pose proof (beyond_options_startScan_options o w0) as Hb.
    pose proof (formats_startScan_options o w0) as Hf.
    assert (_options (startScan_options o w0) = o) as Ho.
    { unfold startScan_options. destruct o as [[[fs|] [d|]]|]; cbn;
        rewrite ?options_fold_targeted; reflexivity. }
    assert (_formats (startScan_options o w0)
            = _formats (startScan_options o w)) as Hfw.
    { rewrite Hf. symmetry. apply formats_startScan_options. }
    unfold beyond_options in Hb. cbn in Hb. injection Hb.
    intros Hcalls Hsess Hwait Hacq Hsc Hbody Hvid Hstr Hn Hvp Hv Hts Hc.
    unfold _getVideoElement. rewrite Hv, Ev.
    unfold continue_with_video, _getFirstResultFromReader, new_session. cbn.
    rewrite Hfw, Hsess, Hcalls, Hwait, Hacq, Hbody, Hvid, Hstr, Hn, Hvp, Hv,
      Hc, Ho, Ev.
    repeat split.
Qed.

Lemma installed_video_is_reused_witness :
  prepare decoding = set_calls (calls decoding ++ [Resolved VVoid]) decoding
  /\ let w' := startScan BACK_options decoding in
     _video w' = Some 0 /\ _videoPromise w' = _videoPromise decoding
     /\ acquisitions w' = acquisitions decoding
     /\ waiters w' = waiters decoding
     /\ streams w' = streams decoding /\ videos w' = videos decoding
     /\ body w' = body decoding
     /\ _controls w' = _controls decoding
     /\ _video_nonce w' = _video_nonce decoding
     /\ _options w' = BACK_options
     /\ sessions w'
        = sessions decoding
          ++ [new_session 0 (length (calls decoding)) by_startScan
                (startScan_options BACK_options decoding)]
     /\ calls w' = calls decoding ++ [Pending].
Proof. apply (installed_video_is_reused decoding 0 BACK_options). reflexivity. Defined.
